(** * SeQUeNCe: events, resource management, topology loading, swap messages

    A shallow embedding of four source files of the simulator:

    - [src/event.py]: the comparison operators of [Event];
    - [src/protocols/management/manager.py]: [ResourceManagerMessage] and
      [ResourceManager];
    - [src/topology/router_net_topo.py]: the part of [RouterNetTopo._load]
      that builds the timeline and the nodes;
    - [src/entanglement_swap.py]: the message dispatch of
      [Swap.received_message].

    Python objects are referred to by handles (natural numbers), lists are
    lists, and an exception is a value of [PyExc] returned next to the state
    the object is left in. *)

From Stdlib Require Import ZArith Lia Ascii String DecimalString.
From Stdlib Require QArith Qcanon.
From stdpp Require Import list strings gmap.

(** The exceptions raised by the embedded code.  [LookupError] stands for the
    failure of a lookup in a collaborator whose source is not part of the
    embedding. *)
Inductive PyExc :=
| ValueError
| KeyError
| IndexError
| TypeError
| AssertionError
| NotImplementedError
| LookupError
| Exception.

(** A call that returns a value or raises. *)
Definition Exc (A : Type) : Type := (PyExc + A)%type.

#[global] Instance Exc_ret : MRet Exc := fun A a => inr a.

#[global] Instance Exc_bind : MBind Exc := fun A B f m =>
  match m with
  | inr a => f a
  | inl e => inl e
  end.

(** The call raised. *)
Definition raises {A} (r : Exc A) : Prop := exists e, r = inl e.

(** ** [event.py] *)

Module Event.

(** The priority of an event is an integer or the default [math.inf]. *)
Inductive priority :=
| Finite (p : Z)
| Inf.

(** [process] is the deferred call; it plays no part in comparisons and is
    kept as a handle. *)
Record Event := {
  time : Z;
  prio : priority;
  process : nat
}.

(** Python's [==], [<] and [>] between two priorities. *)
Definition prio_eqb (p q : priority) : bool :=
  match p, q with
  | Finite x, Finite y => (x =? y)%Z
  | Inf, Inf => true
  | _, _ => false
  end.

Definition prio_ltb (p q : priority) : bool :=
  match p, q with
  | Finite x, Finite y => (x <? y)%Z
  | Finite _, Inf => true
  | Inf, _ => false
  end.

Definition prio_gtb (p q : priority) : bool :=
  match p, q with
  | Finite x, Finite y => (x >? y)%Z
  | Inf, Finite _ => true
  | _, Inf => false
  end.

(** The order on priorities as a proposition: integers by [<], every
    integer below [math.inf]. *)
Definition prio_lt (p q : priority) : Prop :=
  match p, q with
  | Finite x, Finite y => (x < y)%Z
  | Finite _, Inf => True
  | Inf, _ => False
  end.

Definition __eq__ (self another : Event) : bool :=
  (time self =? time another)%Z && prio_eqb (prio self) (prio another).

Definition __ne__ (self another : Event) : bool :=
  negb (time self =? time another)%Z
  || negb (prio_eqb (prio self) (prio another)).

Definition __gt__ (self another : Event) : bool :=
  (time self >? time another)%Z
  || ((time self =? time another)%Z && prio_gtb (prio self) (prio another)).

Definition __lt__ (self another : Event) : bool :=
  (time self <? time another)%Z
  || ((time self =? time another)%Z && prio_ltb (prio self) (prio another)).


End Event.

(** The class does not look at the type of a priority: any Python number
    can be passed.  [NumericEvent] is the same class with every number as
    priority. *)
Module NumericEvent.

(** A Python number.  An [int] or a finite [float] is the rational number
    it denotes (Python compares the two kinds by value); the other floats
    are [inf], [-inf] and [nan]. *)
Inductive number :=
| Rational (q : Qcanon.Qc)
| PosInf
| NegInf
| NaN.

Record Event := {
  time : Z;
  prio : number;
  process : nat
}.

(** Python's [==], [<] and [>] between two numbers: every comparison with
    [nan] is false. *)
Definition num_eqb (p q : number) : bool :=
  match p, q with
  | Rational x, Rational y => bool_decide (x = y)
  | PosInf, PosInf => true
  | NegInf, NegInf => true
  | _, _ => false
  end.

Definition num_ltb (p q : number) : bool :=
  match p, q with
  | Rational x, Rational y => bool_decide (Qcanon.Qclt x y)
  | Rational _, PosInf => true
  | NegInf, Rational _ => true
  | NegInf, PosInf => true
  | _, _ => false
  end.

Definition num_gtb (p q : number) : bool :=
  match p, q with
  | Rational x, Rational y => bool_decide (Qcanon.Qclt y x)
  | PosInf, Rational _ => true
  | Rational _, NegInf => true
  | PosInf, NegInf => true
  | _, _ => false
  end.


Definition __eq__ (self another : Event) : bool :=
  (time self =? time another)%Z && num_eqb (prio self) (prio another).

Definition __ne__ (self another : Event) : bool :=
  negb (time self =? time another)%Z
  || negb (num_eqb (prio self) (prio another)).

Definition __gt__ (self another : Event) : bool :=
  (time self >? time another)%Z
  || ((time self =? time another)%Z && num_gtb (prio self) (prio another)).

Definition __lt__ (self another : Event) : bool :=
  (time self <? time another)%Z
  || ((time self =? time another)%Z && num_ltb (prio self) (prio another)).

End NumericEvent.


(** ** [protocols/management/manager.py] *)

Module Manager.

(** Protocols and memories are Python objects; the embedding refers to a
    protocol by a handle and to a memory by its slot index. *)
Definition Protocol := nat.
Definition Memory := nat.

(** Modelled from the spec: the states of a [MemoryInfo]
    ([rule_manager.py] is not among the sources). *)
Inductive MemoryState := RAW | OCCUPIED | ENTANGLED | EXPIRED.

#[global] Instance MemoryState_eq_dec : EqDecision MemoryState.
Proof. solve_decision. Defined.

(** Modelled from the spec: a [Rule] is a predicate and an action.
    [is_valid rule i infos] is the claim set (slot indices) the predicate
    returns when it is evaluated on the [MemoryInfo] of slot [i]; the
    [MemoryInfo] objects are shared and mutable, so the predicate sees the
    states [infos] they have at the moment of the call.  [rule_id] is the
    identity of the rule object.  The action is an opaque call, see
    [Rule_do] below. *)
Record Rule := {
  rule_id : nat;
  is_valid : nat -> list MemoryState -> list Memory
}.

(** A [ResourceManagerMessage] that [__init__] has built. *)
Inductive ResourceManagerMessage :=
| REQUEST (ini_protocol : Protocol) (req_condition_fun : Protocol -> bool)
| RESPONSE (ini_protocol : Protocol) (is_approved : bool)
           (paired_protocol : option Protocol).

(** The keyword arguments of [ResourceManagerMessage.__init__]; a keyword
    that is not passed is [None]. *)
Record kwargs := {
  kw_protocol : option Protocol;
  kw_req_condition_fun : option (Protocol -> bool);
  kw_is_approved : option bool;
  kw_paired_protocol : option (option Protocol)
}.

Definition kwarg {A} (o : option A) : PyExc + A :=
  match o with
  | Some a => inr a
  | None => inl KeyError
  end.

(** [ResourceManagerMessage.__init__(msg_type, receiver, **kwargs)]; the
    receiver is always the string "resource_manager" and is left out. *)
Definition __init__ (msg_type : string) (kw : kwargs)
  : PyExc + ResourceManagerMessage :=
  match kwarg (kw_protocol kw) with
  | inl e => inl e
  | inr ini_protocol =>
      if String.eqb msg_type "REQUEST" then
        match kwarg (kw_req_condition_fun kw) with
        | inl e => inl e
        | inr f => inr (REQUEST ini_protocol f)
        end
      else if String.eqb msg_type "RESPONSE" then
        match kwarg (kw_is_approved kw) with
        | inl e => inl e
        | inr is_approved =>
            match kwarg (kw_paired_protocol kw) with
            | inl e => inl e
            | inr paired => inr (RESPONSE ini_protocol is_approved paired)
            end
        end
      else inl Exception
  end.

(** The calls the resource manager makes on its collaborators (memory
    manager, memory infos, rules, protocols, the owner's transport), in the
    order it makes them. *)
Inductive Call :=
| MemoryManager_update (memory : Memory) (state : MemoryState)
| MemoryInfo_to_occupied (slot : Memory)
| Rule_do (rule : nat) (memories : list Memory)
| Protocol_set_others (protocol : Protocol) (other : option Protocol)
| Protocol_start (protocol : Protocol)
| Protocol_release (protocol : Protocol)
| Owner_send_message (dst : string) (msg : ResourceManagerMessage).

(** The resource manager with the parts of its owner it touches:
    [memory_manager] holds the state of each [MemoryInfo] by slot index,
    [rule_manager] the loaded rules in registration order, [protocols] is
    [owner.protocols].  [calls] is the record of calls made so far.
    [memory_to_protocol_map] is never read or written by the source and is
    left out. *)
Record ResourceManager := {
  memory_manager : list MemoryState;
  rule_manager : list Rule;
  protocols : list Protocol;
  pending_protocols : list Protocol;
  waiting_protocols : list Protocol;
  calls : list Call
}.

Definition set_memory_manager (f : list MemoryState -> list MemoryState)
    (s : ResourceManager) : ResourceManager :=
  {| memory_manager := f (memory_manager s);
     rule_manager := rule_manager s;
     protocols := protocols s;
     pending_protocols := pending_protocols s;
     waiting_protocols := waiting_protocols s;
     calls := calls s |}.

Definition set_rule_manager (f : list Rule -> list Rule)
    (s : ResourceManager) : ResourceManager :=
  {| memory_manager := memory_manager s;
     rule_manager := f (rule_manager s);
     protocols := protocols s;
     pending_protocols := pending_protocols s;
     waiting_protocols := waiting_protocols s;
     calls := calls s |}.

Definition set_protocols (f : list Protocol -> list Protocol)
    (s : ResourceManager) : ResourceManager :=
  {| memory_manager := memory_manager s;
     rule_manager := rule_manager s;
     protocols := f (protocols s);
     pending_protocols := pending_protocols s;
     waiting_protocols := waiting_protocols s;
     calls := calls s |}.

Definition set_pending_protocols (f : list Protocol -> list Protocol)
    (s : ResourceManager) : ResourceManager :=
  {| memory_manager := memory_manager s;
     rule_manager := rule_manager s;
     protocols := protocols s;
     pending_protocols := f (pending_protocols s);
     waiting_protocols := waiting_protocols s;
     calls := calls s |}.

Definition set_waiting_protocols (f : list Protocol -> list Protocol)
    (s : ResourceManager) : ResourceManager :=
  {| memory_manager := memory_manager s;
     rule_manager := rule_manager s;
     protocols := protocols s;
     pending_protocols := pending_protocols s;
     waiting_protocols := f (waiting_protocols s);
     calls := calls s |}.

Definition set_calls (f : list Call -> list Call)
    (s : ResourceManager) : ResourceManager :=
  {| memory_manager := memory_manager s;
     rule_manager := rule_manager s;
     protocols := protocols s;
     pending_protocols := pending_protocols s;
     waiting_protocols := waiting_protocols s;
     calls := f (calls s) |}.

(** *** Methods as state transformers that may raise

    A method takes the manager and returns a value or an exception,
    together with the manager as the call leaves it: what was written
    before an exception stays written. *)
Definition M (A : Type) : Type :=
  ResourceManager -> (PyExc + A) * ResourceManager.

#[global] Instance M_ret : MRet M := fun A a s => (inr a, s).

#[global] Instance M_bind : MBind M := fun A B f m s =>
  match m s with
  | (inr a, s') => f a s'
  | (inl e, s') => (inl e, s')
  end.

Definition raise {A} (e : PyExc) : M A := fun s => (inl e, s).
Definition gets {A} (f : ResourceManager -> A) : M A := fun s => (inr (f s), s).
Definition modify (f : ResourceManager -> ResourceManager) : M unit :=
  fun s => (inr tt, f s).
Definition lift {A} (r : PyExc + A) : M A := fun s => (r, s).

(** Record a call on a collaborator. *)
Definition call (c : Call) : M unit := modify (set_calls (fun l => l ++ [c])).

(** Python's [list.remove(x)]: drops the first element equal to [x]; the
    list has no such element when the result is [None]. *)
Fixpoint list_remove (x : Protocol) (l : list Protocol)
  : option (list Protocol) :=
  match l with
  | [] => None
  | y :: l' =>
      if decide (y = x) then Some l' else cons y <$> list_remove x l'
  end.

(** [for x in l: body(x)] *)
Fixpoint for_each {A} (l : list A) (body : A -> M unit) : M unit :=
  match l with
  | [] => mret tt
  | x :: l' => body x ;; for_each l' body
  end.

(** *** Collaborators *)

(** Modelled from the spec: [MemoryManager.update(memory, new_state)] sets
    the state of the memory's [MemoryInfo].  A memory that is not a slot of
    the node has no [MemoryInfo]; the lookup fails. *)
Definition memory_manager_update (memory : Memory) (state : MemoryState)
  : M unit :=
  call (MemoryManager_update memory state) ;;
  infos ← gets memory_manager;
  if decide (memory < length infos)
  then modify (set_memory_manager (fun l => <[memory:=state]> l))
  else raise LookupError.

(** Modelled from the spec: [MemoryManager.get_info_by_memory(memory)]
    returns the [MemoryInfo] of the memory, here its slot index. *)
Definition get_info_by_memory (memory : Memory) : M Memory :=
  infos ← gets memory_manager;
  if decide (memory < length infos) then mret memory else raise LookupError.

(** Modelled from the spec: [MemoryInfo.to_occupied()] marks the info
    [OCCUPIED]. *)
Definition to_occupied (memory_info : Memory) : M unit :=
  call (MemoryInfo_to_occupied memory_info) ;;
  modify (set_memory_manager (fun l => <[memory_info:=OCCUPIED]> l)).

(** Modelled from the spec: [RuleManager.load(rule)] appends the rule to
    the ordered rule list. *)
Definition rule_manager_load (rule : Rule) : M unit :=
  modify (set_rule_manager (fun l => l ++ [rule])).

(** Modelled from the spec: [Rule.do(memories)] invokes the rule's action
    on the claim set, producing a protocol; the call is recorded. *)
Definition rule_do (rule : Rule) (memories : list Memory) : M unit :=
  call (Rule_do (rule_id rule) memories).

(** *** [ResourceManager.load] *)

(** The body of the loop over the memory infos.  Modelled from the spec:
    iterating the memory manager yields the infos in slot order. *)
Definition load_body (rule : Rule) (memory_info : Memory) : M unit :=
  infos ← gets memory_manager;
  let memories := is_valid rule memory_info infos in
  if decide (0 < length memories)
  then to_occupied memory_info ;; rule_do rule memories
  else mret tt.

Definition load (rule : Rule) : M bool :=
  rule_manager_load rule ;;
  infos ← gets memory_manager;
  for_each (seq 0 (length infos)) (load_body rule) ;;
  mret true.

(** *** [ResourceManager.update] *)

(** Python's [self.owner.protocols.remove(protocol)]. *)
Definition owner_protocols_remove (protocol : Protocol) : M unit :=
  l ← gets protocols;
  match list_remove protocol l with
  | Some l' => modify (set_protocols (fun _ => l'))
  | None => raise ValueError
  end.

(** The loop over the rules, left at the first match ([break]).  Modelled
    from the spec: iterating the rule manager yields the rules in
    registration order. *)
Fixpoint update_rules (rules : list Rule) (memo_info : Memory) : M unit :=
  match rules with
  | [] => mret tt
  | rule :: rest =>
      infos ← gets memory_manager;
      let memories := is_valid rule memo_info infos in
      if decide (0 < length memories)
      then rule_do rule memories ;; to_occupied memo_info
      else update_rules rest memo_info
  end.

Definition update (protocol : Protocol) (memory : Memory)
    (state : MemoryState) : M bool :=
  memory_manager_update memory state ;;
  owner_protocols_remove protocol ;;
  memo_info ← get_info_by_memory memory;
  rules ← gets rule_manager;
  update_rules rules memo_info ;;
  mret true.

(** *** [ResourceManager.send_request] *)

Definition send_request (protocol : Protocol) (req_dst : option string)
    (req_condition_func : Protocol -> bool) : M unit :=
  match req_dst with
  | None => modify (set_waiting_protocols (fun l => l ++ [protocol]))
  | Some dst =>
      modify (set_pending_protocols (fun l => l ++ [protocol])) ;;
      msg ← lift (__init__ "REQUEST"
                    {| kw_protocol := Some protocol;
                       kw_req_condition_fun := Some req_condition_func;
                       kw_is_approved := None;
                       kw_paired_protocol := None |});
      call (Owner_send_message dst msg)
  end.

(** *** [ResourceManager.received_message] *)

Definition pending_protocols_remove (protocol : Protocol) : M unit :=
  l ← gets pending_protocols;
  match list_remove protocol l with
  | Some l' => modify (set_pending_protocols (fun _ => l'))
  | None => raise ValueError
  end.

Definition waiting_protocols_remove (protocol : Protocol) : M unit :=
  l ← gets waiting_protocols;
  match list_remove protocol l with
  | Some l' => modify (set_waiting_protocols (fun _ => l'))
  | None => raise ValueError
  end.

Definition response (ini_protocol : Protocol) (is_approved : bool)
    (paired_protocol : option Protocol) : PyExc + ResourceManagerMessage :=
  __init__ "RESPONSE"
    {| kw_protocol := Some ini_protocol;
       kw_req_condition_fun := None;
       kw_is_approved := Some is_approved;
       kw_paired_protocol := Some paired_protocol |}.

(** The loop of the REQUEST branch over the waiting protocols; the result
    says whether the loop body returned from the method. *)
Fixpoint request_loop (waiting : list Protocol) (src : string)
    (ini_protocol : Protocol) (req_condition_fun : Protocol -> bool)
  : M bool :=
  match waiting with
  | [] => mret false
  | protocol :: rest =>
      if req_condition_fun protocol then
        call (Protocol_set_others protocol (Some ini_protocol)) ;;
        new_msg ← lift (response ini_protocol true (Some protocol));
        call (Owner_send_message src new_msg) ;;
        waiting_protocols_remove protocol ;;
        modify (set_protocols (fun l => l ++ [protocol])) ;;
        call (Protocol_start protocol) ;;
        mret true
      else request_loop rest src ini_protocol req_condition_fun
  end.

Definition received_message (src : string) (msg : ResourceManagerMessage)
  : M unit :=
  match msg with
  | REQUEST ini_protocol req_condition_fun =>
      waiting ← gets waiting_protocols;
      returned ← request_loop waiting src ini_protocol req_condition_fun;
      if returned : bool then mret tt
      else
        new_msg ← lift (response ini_protocol false None);
        call (Owner_send_message src new_msg)
  | RESPONSE protocol is_approved paired_protocol =>
      if is_approved then
        call (Protocol_set_others protocol paired_protocol) ;;
        pending_protocols_remove protocol ;;
        modify (set_protocols (fun l => l ++ [protocol])) ;;
        call (Protocol_start protocol)
      else
        call (Protocol_release protocol) ;;
        pending_protocols_remove protocol
  end.

(** A freshly constructed manager for a node with the given memories. *)
Definition new (infos : list MemoryState) : ResourceManager :=
  {| memory_manager := infos;
     rule_manager := [];
     protocols := [];
     pending_protocols := [];
     waiting_protocols := [];
     calls := [] |}.

End Manager.

(** ** [topology/router_net_topo.py] *)

Module Topo.

(** The entries of the configuration file that [_add_timeline],
    [_map_bsm_routers] and [_add_nodes] read.  A top-level key that may be
    absent is an [option]; the entries of a node and of a channel are taken
    to be present. *)
Record GroupConf := {
  group_type : string
}.

Record NodeConf := {
  node_name : string;
  node_type : string;
  node_seed : Z;
  node_group : Z;
  node_memo_size : option Z
}.

Record QChannelConf := {
  qc_source : string;
  qc_destination : string
}.

Record Config := {
  conf_stop_time : option Z;
  conf_is_parallel : option bool;
  conf_process_num : option Z;
  conf_groups : option (list GroupConf);
  conf_lookahead : option Z;
  conf_ip : option string;
  conf_port : option Z;
  conf_nodes : list NodeConf;
  conf_qchannels : list QChannelConf
}.

(** [MPI.COMM_WORLD]: the rank of this process and the number of
    processes. *)
Record MPI := {
  Get_rank : nat;
  Get_size : nat
}.

(** The timeline a process builds; a stop time of [None] is [float('inf')].
    The constructors of the timelines and of the nodes are outside the
    embedding and are taken to return. *)
Inductive Timeline :=
| SequentialTimeline (stop_time : option Z)
| ParallelTimeline (lookahead : Z) (qm_ip : string) (qm_port : Z)
    (stop_time : option Z)
| AsyncParallelTimeline (lookahead : Z) (qm_ip : string) (qm_port : Z)
    (stop_time : option Z).

Inductive NodeObj :=
| BSMNode (name : string) (others : list string) (seed : Z)
| QuantumRouter (name : string) (memo_size : option Z) (seed : Z).

(** The topology object while it is loaded.  [foreign_entities] are the
    calls of [tl.add_foreign_entity]. *)
Record RouterNetTopo := {
  tl : option Timeline;
  bsm_to_router_map : gmap string (list string);
  nodes : gmap string (list NodeObj);
  foreign_entities : list (string * Z)
}.

Definition SYNC : string := "sync".
Definition ASYNC : string := "async".
Definition BSM_NODE : string := "BSMNode".
Definition QUANTUM_ROUTER : string := "QuantumRouter".

(** [config[key]] *)
Definition item {A} (o : option A) : Exc A :=
  match o with
  | Some a => inr a
  | None => inl KeyError
  end.

(** [l[i]] for an index that is not negative. *)
Definition index {A} (l : list A) (i : nat) : Exc A :=
  match l !! i with
  | Some a => inr a
  | None => inl IndexError
  end.

Definition _add_timeline (mpi : MPI) (config : Config) : Exc Timeline :=
  let stop_time := conf_stop_time config in
  if default false (conf_is_parallel config) then
    process_num ← item (conf_process_num config);
    if negb (Z.of_nat (Get_size mpi) =? process_num)%Z
    then inl AssertionError
    else
      let rank := Get_rank mpi in
      groups ← item (conf_groups config);
      group ← index groups rank;
      let tl_type := group_type group in
      lookahead ← item (conf_lookahead config);
      ip ← item (conf_ip config);
      port ← item (conf_port config);
      if String.eqb tl_type SYNC then
        mret (ParallelTimeline lookahead ip port stop_time)
      else if String.eqb tl_type ASYNC then
        mret (AsyncParallelTimeline lookahead ip port stop_time)
      else inl NotImplementedError
  else mret (SequentialTimeline stop_time).

Definition _map_bsm_routers (config : Config)
    (m : gmap string (list string)) : gmap string (list string) :=
  foldl (fun m qc =>
           let src := qc_source qc in
           let dst := qc_destination qc in
           match m !! dst with
           | Some routers => <[dst := routers ++ [src]]> m
           | None => <[dst := [src]]> m
           end) m (conf_qchannels config).

(** The body of the loop of [_add_nodes]. *)
Definition add_node (mpi : MPI) (self : RouterNetTopo) (node : NodeConf)
  : Exc RouterNetTopo :=
  let rank := Z.of_nat (Get_rank mpi) in
  let size := Z.of_nat (Get_size mpi) in
  let seed := node_seed node in
  let type := node_type node in
  let group := node_group node in
  let name := node_name node in
  if negb (group <? size)%Z then inl AssertionError
  else if (group =? rank)%Z then
    node_obj ←
      (if String.eqb type BSM_NODE then
         others ← item (bsm_to_router_map self !! name);
         mret (BSMNode name others seed)
       else if String.eqb type QUANTUM_ROUTER then
         let memo_size := default 0%Z (node_memo_size node) in
         if (memo_size =? 0)%Z
         then mret (QuantumRouter name None seed)
         else mret (QuantumRouter name (Some memo_size) seed)
       else inl NotImplementedError);
    mret {| tl := tl self;
            bsm_to_router_map := bsm_to_router_map self;
            nodes := match nodes self !! type with
                     | Some l => <[type := l ++ [node_obj]]> (nodes self)
                     | None => <[type := [node_obj]]> (nodes self)
                     end;
            foreign_entities := foreign_entities self |}
  else
    mret {| tl := tl self;
            bsm_to_router_map := bsm_to_router_map self;
            nodes := nodes self;
            foreign_entities := foreign_entities self ++ [(name, group)] |}.

Fixpoint add_nodes_loop (mpi : MPI) (l : list NodeConf) (self : RouterNetTopo)
  : Exc RouterNetTopo :=
  match l with
  | [] => mret self
  | node :: rest => self' ← add_node mpi self node; add_nodes_loop mpi rest self'
  end.

Definition _add_nodes (mpi : MPI) (config : Config) (self : RouterNetTopo)
  : Exc RouterNetTopo :=
  add_nodes_loop mpi (conf_nodes config) self.

(** The first three steps of [_load].  The steps after them (channels,
    connections, forwarding table) run only when these have returned; no
    step of [_load] runs the timeline.  The base class [Topology] is not
    among the sources: its [nodes] dictionary is taken to start empty. *)
Definition _load (mpi : MPI) (config : Config) : Exc RouterNetTopo :=
  timeline ← _add_timeline mpi config;
  let self := {| tl := Some timeline;
                 bsm_to_router_map := _map_bsm_routers config ∅;
                 nodes := ∅;
                 foreign_entities := [] |} in
  _add_nodes mpi config self.

End Topo.

(** ** [entanglement_swap.py] *)

Module Swap.

(** Python's [str.split(sep)] for a separator of one character. *)
Fixpoint split (sep : ascii) (s : string) : list string :=
  match s with
  | EmptyString => [EmptyString]
  | String c rest =>
      if Ascii.eqb c sep then EmptyString :: split sep rest
      else
        match split sep rest with
        | token :: tokens => String c token :: tokens
        | [] => [String c EmptyString]
        end
  end.

(** [l[i]] and [l[i] = v] with Python's indices: a negative index counts
    from the end, an index outside the list raises [IndexError]. *)
Definition position {A} (l : list A) (i : Z) : Exc nat :=
  let n := Z.of_nat (length l) in
  if (0 <=? i)%Z && (i <? n)%Z then mret (Z.to_nat i)
  else if (- n <=? i)%Z && (i <? 0)%Z then mret (Z.to_nat (n + i))
  else inl IndexError.

Definition getitem {A} (l : list A) (i : Z) : Exc A :=
  k ← position l i;
  match l !! k with
  | Some a => mret a
  | None => inl IndexError
  end.

Definition setitem {A} (l : list A) (i : Z) (v : A) : Exc (list A) :=
  k ← position l i;
  mret (<[k:=v]> l).

(** [message(2)]: [message] is a list, and calling a list raises
    [TypeError]. *)
Definition call_list (message : list string) (argument : Z) : Exc string :=
  inl TypeError.

(** A decimal literal with an optional sign, as [int] reads it. *)
Definition digit (c : ascii) : option Z :=
  let n := nat_of_ascii c in
  if (48 <=? n) && (n <=? 57) then Some (Z.of_nat (n - 48)) else None.

Fixpoint digits (acc : Z) (s : string) : option Z :=
  match s with
  | EmptyString => Some acc
  | String c rest =>
      match digit c with
      | Some d => digits (10 * acc + d) rest
      | None => None
      end
  end.

Definition int_decimal (s : string) : Exc Z :=
  let unsigned (t : string) : option Z :=
    match t with
    | EmptyString => None
    | _ => digits 0 t
    end in
  let r :=
    match s with
    | String "-"%char t => Z.opp <$> unsigned t
    | String "+"%char t => unsigned t
    | _ => unsigned s
    end in
  match r with
  | Some z => inr z
  | None => inl ValueError
  end.

(** The fields of a [Swap] that the "got_bits" branch touches. *)
Record Swap := {
  bit_lengths : list (option Z);
  sample_size : Z
}.

Definition set_bit_lengths (l : list (option Z)) (self : Swap) : Swap :=
  {| bit_lengths := l; sample_size := sample_size self |}.

Section ReceivedMessage.

(** Python's [int] on a string. *)
Variable int : string -> Exc Z.

(** The bodies of the branches for "begin_entanglement_swap",
    "received_photons" and "bsm_result", and what the "got_bits" branch does
    once both lengths are stored: they schedule events, drive hardware and
    print, and are outside the embedding. *)
Variable begin_entanglement_swap : Swap -> list string -> Exc Swap.
Variable received_photons : Swap -> list string -> Exc Swap.
Variable bsm_result : Swap -> list string -> Exc Swap.
Variable check_bit_lengths : Swap -> Exc Swap.

(** The "got_bits" branch. *)
Definition got_bits (self : Swap) (message : list string) : Exc Swap :=
  token ← getitem message 1;
  sender ← int token;
  field ← call_list message 2;
  bits ← int field;
  lengths ← setitem (bit_lengths self) sender (Some bits);
  check_bit_lengths (set_bit_lengths lengths self).

(** [Swap.received_message], on the message the node holds. *)
Definition received_message (self : Swap) (node_message : string)
  : Exc Swap :=
  let message := split " "%char node_message in
  head ← getitem message 0;
  self ← (if String.eqb head "begin_entanglement_swap"
          then begin_entanglement_swap self message else mret self);
  self ← (if String.eqb head "received_photons"
          then received_photons self message else mret self);
  self ← (if String.eqb head "bsm_result"
          then bsm_result self message else mret self);
  if String.eqb head "got_bits" then got_bits self message else mret self.

(** The "got_bits" branch as the spec intends it: the third field of the
    message is read by position. *)
Definition got_bits_intended (self : Swap) (message : list string)
  : Exc Swap :=
  token ← getitem message 1;
  sender ← int token;
  field ← getitem message 2;
  bits ← int field;
  lengths ← setitem (bit_lengths self) sender (Some bits);
  check_bit_lengths (set_bit_lengths lengths self).

End ReceivedMessage.

End Swap.

(** * Properties *)

(** ** The order on events *)

Section EventOrder.
Import Event.


End EventOrder.

Section NumericEventOrder.
Import NumericEvent.






End NumericEventOrder.


(** The claim does not hold for every pair of events.  An event whose
    priority is [nan] and an event at the same time are not ordered: none of
    [a < b], [a == b], [a > b] holds, and the event is not equal to itself. *)
Lemma nan_priority_unordered :
  let a := {| NumericEvent.time := 0; NumericEvent.prio := NumericEvent.NaN;
              NumericEvent.process := 0 |} in
  let b := {| NumericEvent.time := 0; NumericEvent.prio := NumericEvent.PosInf;
              NumericEvent.process := 1 |} in
  NumericEvent.__lt__ a b = false
  /\ NumericEvent.__eq__ a b = false
  /\ NumericEvent.__gt__ a b = false
  /\ NumericEvent.__eq__ a a = false
  /\ NumericEvent.__ne__ a a = true.
Proof. repeat split. Qed.

(** ** The resource manager *)

(** Unfold the monad and the state accessors of one method body. *)
Ltac run :=
  unfold Manager.memory_manager_update, Manager.get_info_by_memory,
    Manager.to_occupied, Manager.rule_manager_load, Manager.rule_do,
    Manager.owner_protocols_remove, Manager.pending_protocols_remove,
    Manager.waiting_protocols_remove, Manager.response, Manager.call,
    Manager.modify, Manager.gets, Manager.raise, Manager.lift,
    mbind, Manager.M_bind, mret, Manager.M_ret;
  simpl.

(** Unfold the field updates of a manager. *)
Ltac setters :=
  unfold Manager.set_memory_manager, Manager.set_rule_manager,
    Manager.set_protocols, Manager.set_pending_protocols,
    Manager.set_waiting_protocols, Manager.set_calls;
  simpl.

Section ManagerLemmas.
Import Manager.

(** *** [list.remove] *)

Lemma list_remove_app_cons x before after :
  x ∉ before ->
  list_remove x (before ++ x :: after) = Some (before ++ after).
Proof.
  induction before as [|y before IH]; intros Hx; simpl.
  - by rewrite decide_True.
  - apply not_elem_of_cons in Hx as [Hne Hx].
    rewrite decide_False by done. by rewrite IH.
Qed.

Lemma list_remove_Some_inv x l l' :
  list_remove x l = Some l' ->
  exists before after,
    l = before ++ x :: after /\ (x ∉ before) /\ l' = before ++ after.
Proof.
  revert l'. induction l as [|y l IH]; intros l'; simpl; [done|].
  destruct (decide (y = x)) as [->|Hne].
  - intros [= <-]. exists [], l. split_and!; [done| |done]. apply not_elem_of_nil.
  - destruct (list_remove x l) as [l0|] eqn:E; simpl; [|done].
    intros [= <-]. destruct (IH l0 eq_refl) as (b & a & -> & Hb & ->).
    exists (y :: b), a. split_and!; [done| |done].
    apply not_elem_of_cons. by split.
Qed.

Lemma list_remove_None x l : list_remove x l = None <-> x ∉ l.
Proof.
  induction l as [|y l IH]; simpl.
  - split; [intros _; apply not_elem_of_nil|done].
  - destruct (decide (y = x)) as [->|Hne].
    + split; [done|]. intros H. destruct H. apply elem_of_cons. by left.
    + rewrite not_elem_of_cons. destruct (list_remove x l); simpl.
      * split; [done|]. intros [_ H]. by apply IH in H.
      * split; [|done]. intros _. split; [done|]. by apply IH.
Qed.

Lemma list_remove_elem_of x l : x ∈ l -> is_Some (list_remove x l).
Proof.
  intros Hx. destruct (list_remove x l) eqn:E; [by eexists|].
  by apply list_remove_None in E.
Qed.

(** Removing an element of a duplicate-free list leaves no copy of it. *)
Lemma list_remove_NoDup x l l' :
  NoDup l -> list_remove x l = Some l' ->
  NoDup l' /\ (x ∉ l') /\ (forall y, y ∈ l' <-> (y ∈ l) /\ y ≠ x).
Proof.
  intros Hnd Hrm.
  destruct (list_remove_Some_inv _ _ _ Hrm) as (b & a & -> & Hb & ->).
  apply NoDup_app in Hnd as (Hndb & Hdisj & Hnda).
  apply NoDup_cons in Hnda as [Hxa Hnda].
  split_and!.
  - apply NoDup_app. split_and!; [done| |done].
    intros y Hy Hya. apply (Hdisj y Hy). apply elem_of_cons. by right.
  - rewrite elem_of_app. tauto.
  - intros y. rewrite !elem_of_app, elem_of_cons. split.
    + intros [Hy|Hy]; (split; [tauto|]); intros ->; tauto.
    + intros [[Hy|[->|Hy]] Hne]; tauto.
Qed.

(** *** The rule loop of [update] *)



End ManagerLemmas.

(** *** [update] *)

Section Update.
Import Manager.


(** Rule 1 claims a memory in state [ENTANGLED], rule 2 claims a memory in
    any state. *)
Definition rule_entangled : Rule :=
  {| rule_id := 1;
     is_valid := fun i infos =>
       match infos !! i with Some ENTANGLED => [i] | _ => [] end |}.

Definition rule_any : Rule :=
  {| rule_id := 2; is_valid := fun i _ => [i] |}.

(** A node with one memory, protocol 5 active, and the two rules loaded. *)
Definition node_two_rules : ResourceManager :=
  {| memory_manager := [OCCUPIED];
     rule_manager := [rule_entangled; rule_any];
     protocols := [5];
     pending_protocols := [];
     waiting_protocols := [];
     calls := [] |}.


(** The statement does not extend to every call.  Protocol 6 is not among
    the owner's protocols of [node_two_rules]: [update(6, memory 0,
    ENTANGLED)] raises once the state is written.  The predicate of rule 1
    returns the claim set [[0]] on the freed memory, yet no action is
    invoked and the memory is left [ENTANGLED], not [OCCUPIED]. *)
Lemma update_inactive_protocol_skips_rules :
  let r := update 6 0 ENTANGLED node_two_rules in
  r.1 = inl ValueError
  /\ is_valid rule_entangled 0 (memory_manager r.2) = [0]
  /\ calls r.2 = [MemoryManager_update 0 ENTANGLED]
  /\ memory_manager r.2 !! 0 = Some ENTANGLED.
Proof. repeat split. Qed.

(** C10.  [update] is not atomic on error: the new state is written to the
    memory first and the protocol is removed from the owner's protocols
    afterwards, so when the protocol is not among them a [ValueError]
    reaches the caller with the memory's state already changed, and no rule
    is evaluated. *)
Theorem update_not_atomic (s : ResourceManager)
    (protocol : Protocol) (memory : Memory) (state : MemoryState) :
  memory < length (memory_manager s) ->
  protocol ∉ protocols s ->
  update protocol memory state s =
    (inl ValueError,
     {| memory_manager := <[memory:=state]> (memory_manager s);
        rule_manager := rule_manager s;
        protocols := protocols s;
        pending_protocols := pending_protocols s;
        waiting_protocols := waiting_protocols s;
        calls := calls s ++ [MemoryManager_update memory state] |}).
Proof.
  intros Hmem Hp. apply list_remove_None in Hp.
  unfold update. run. rewrite decide_True by done. simpl.
  by rewrite Hp.
Qed.

(** Protocol 6 is not active on [node_two_rules]: the memory is left
    [ENTANGLED], rule 1 would match but is not evaluated. *)
Lemma update_not_atomic_witness :
  update 6 0 ENTANGLED node_two_rules =
    (inl ValueError,
     {| memory_manager := [ENTANGLED];
        rule_manager := [rule_entangled; rule_any];
        protocols := [5];
        pending_protocols := [];
        waiting_protocols := [];
        calls := [MemoryManager_update 0 ENTANGLED] |})
  /\ is_valid rule_entangled 0 [ENTANGLED] = [0].
Proof.
  split; [|reflexivity].
  apply (update_not_atomic node_two_rules 6 0 ENTANGLED).
  - simpl. lia.
  - simpl. intros H. apply elem_of_cons in H as [H|H]; [discriminate|].
    by apply elem_of_nil in H.
Defined.

End Update.

(** *** [received_message] *)

Section ReceivedMessage.
Import Manager.

(** No protocol of a list satisfies the condition of a request. *)
Definition none_matches (cond : Protocol -> bool) (l : list Protocol) : Prop :=
  Forall (fun p => cond p = false) l.

Lemma none_matches_not_elem cond l p :
  none_matches cond l -> cond p = true -> p ∉ l.
Proof.
  intros Hl Hp Hin. unfold none_matches in Hl.
  rewrite Forall_forall in Hl. specialize (Hl p Hin). congruence.
Qed.

Lemma request_loop_no_match waiting src ini cond s :
  none_matches cond waiting ->
  request_loop waiting src ini cond s = (inr false, s).
Proof.
  induction 1 as [|p waiting Hp _ IH]; simpl; [done|].
  by rewrite Hp.
Qed.

Lemma request_loop_first_match before protocol after src ini cond s ws :
  none_matches cond before ->
  cond protocol = true ->
  list_remove protocol (waiting_protocols s) = Some ws ->
  request_loop (before ++ protocol :: after) src ini cond s =
    (inr true,
     {| memory_manager := memory_manager s;
        rule_manager := rule_manager s;
        protocols := protocols s ++ [protocol];
        pending_protocols := pending_protocols s;
        waiting_protocols := ws;
        calls := calls s ++ [Protocol_set_others protocol (Some ini);
                             Owner_send_message src
                               (RESPONSE ini true (Some protocol));
                             Protocol_start protocol] |}).
Proof.
  intros Hbefore Hp Hws.
  induction Hbefore as [|q before Hq _ IH]; simpl.
  - rewrite Hp. run. rewrite Hws. simpl. setters.
    by rewrite <- !app_assoc.
  - by rewrite Hq.
Qed.

Lemma received_request_match s src ini cond before protocol after :
  waiting_protocols s = before ++ protocol :: after ->
  none_matches cond before ->
  cond protocol = true ->
  received_message src (REQUEST ini cond) s =
    (inr tt,
     {| memory_manager := memory_manager s;
        rule_manager := rule_manager s;
        protocols := protocols s ++ [protocol];
        pending_protocols := pending_protocols s;
        waiting_protocols := before ++ after;
        calls := calls s ++ [Protocol_set_others protocol (Some ini);
                             Owner_send_message src
                               (RESPONSE ini true (Some protocol));
                             Protocol_start protocol] |}).
Proof.
  intros Hw Hbefore Hp.
  unfold received_message. run. rewrite Hw.
  erewrite request_loop_first_match; [done..|].
  rewrite Hw. apply list_remove_app_cons.
  by eapply none_matches_not_elem.
Qed.

Lemma received_request_no_match s src ini cond :
  none_matches cond (waiting_protocols s) ->
  received_message src (REQUEST ini cond) s =
    (inr tt,
     set_calls (fun l => l ++ [Owner_send_message src
                                 (RESPONSE ini false None)]) s).
Proof.
  intros Hnone. unfold received_message. run.
  by rewrite request_loop_no_match.
Qed.

(** C2.  A REQUEST scans [waiting_protocols] in insertion order.  The first
    protocol satisfying the condition is bound to the initiator, a RESPONSE
    with [approved = true] and that protocol as paired protocol goes back to
    the sender, and the protocol leaves [waiting_protocols], is appended to
    the owner's protocols and is started.  When no waiting protocol satisfies
    the condition, a RESPONSE with [approved = false] is sent and
    [waiting_protocols] is unchanged.  So of two successive REQUESTs that can
    only be served by one and the same waiting protocol, the first is
    approved and the second is rejected. *)
Theorem request_pairs_first_waiting (s : ResourceManager) (src : string)
    (ini : Protocol) (cond : Protocol -> bool) :
  (forall before protocol after,
      waiting_protocols s = before ++ protocol :: after ->
      none_matches cond before ->
      cond protocol = true ->
      received_message src (REQUEST ini cond) s =
        (inr tt,
         {| memory_manager := memory_manager s;
            rule_manager := rule_manager s;
            protocols := protocols s ++ [protocol];
            pending_protocols := pending_protocols s;
            waiting_protocols := before ++ after;
            calls := calls s ++ [Protocol_set_others protocol (Some ini);
                                 Owner_send_message src
                                   (RESPONSE ini true (Some protocol));
                                 Protocol_start protocol] |}))
  /\ (none_matches cond (waiting_protocols s) ->
      received_message src (REQUEST ini cond) s =
        (inr tt,
         {| memory_manager := memory_manager s;
            rule_manager := rule_manager s;
            protocols := protocols s;
            pending_protocols := pending_protocols s;
            waiting_protocols := waiting_protocols s;
            calls := calls s ++ [Owner_send_message src
                                   (RESPONSE ini false None)] |}))
  /\ (forall before protocol after src2 ini2 cond2,
        waiting_protocols s = before ++ protocol :: after ->
        none_matches cond before ->
        cond protocol = true ->
        none_matches cond2 (before ++ after) ->
        let s1 := (received_message src (REQUEST ini cond) s).2 in
        In (Owner_send_message src (RESPONSE ini true (Some protocol)))
           (calls s1)
        /\ received_message src2 (REQUEST ini2 cond2) s1 =
             (inr tt,
              set_calls
                (fun l => l ++ [Owner_send_message src2
                                  (RESPONSE ini2 false None)]) s1)).
Proof.
  split_and!.
  - intros before protocol after. apply received_request_match.
  - intros Hnone. by rewrite received_request_no_match.
  - intros before protocol after src2 ini2 cond2 Hw Hbefore Hp Hnone2 s1.
    subst s1. rewrite (received_request_match _ _ _ _ _ _ _ Hw Hbefore Hp).
    cbn [snd]. split.
    + simpl. apply in_or_app. right. simpl. tauto.
    + by apply received_request_no_match.
Qed.

(** Scenario C of the spec: protocol 4 waits alone; node [a] and then node
    [c] ask for a protocol with handle 4. *)
Definition one_waiting : ResourceManager :=
  {| memory_manager := [];
     rule_manager := [];
     protocols := [];
     pending_protocols := [];
     waiting_protocols := [4];
     calls := [] |}.

Lemma request_pairs_first_waiting_witness :
  let s1 := (received_message "a" (REQUEST 10 (Nat.eqb 4)) one_waiting).2 in
  let s2 := (received_message "c" (REQUEST 11 (Nat.eqb 4)) s1).2 in
  waiting_protocols s1 = [] /\ protocols s1 = [4]
  /\ calls s2 = [Protocol_set_others 4 (Some 10);
                 Owner_send_message "a" (RESPONSE 10 true (Some 4));
                 Protocol_start 4;
                 Owner_send_message "c" (RESPONSE 11 false None)].
Proof.
  destruct (request_pairs_first_waiting one_waiting "a" 10 (Nat.eqb 4))
    as (Hfirst & _ & Hsecond).
  specialize (Hfirst [] 4 [] eq_refl (Forall_nil_2 _) eq_refl).
  specialize (Hsecond [] 4 [] "c" 11 (Nat.eqb 4) eq_refl
                (Forall_nil_2 _) eq_refl (Forall_nil_2 _)).
  cbv zeta in Hsecond. destruct Hsecond as [_ Hsecond].
  cbv zeta. rewrite Hsecond, Hfirst. simpl. done.
Defined.

(** C3.  A RESPONSE for a protocol that is in [pending_protocols]: when it
    approves, the protocol is bound to the paired protocol of the message,
    leaves [pending_protocols], is appended to the owner's protocols and is
    started; when it rejects, the protocol is released and leaves
    [pending_protocols].  Neither case raises. *)
Theorem response_settles_pending (s : ResourceManager) (src : string)
    (protocol : Protocol) (paired : option Protocol) :
  protocol ∈ pending_protocols s ->
  exists before after,
    pending_protocols s = before ++ protocol :: after
    /\ (protocol ∉ before)
    /\ received_message src (RESPONSE protocol true paired) s =
         (inr tt,
          {| memory_manager := memory_manager s;
             rule_manager := rule_manager s;
             protocols := protocols s ++ [protocol];
             pending_protocols := before ++ after;
             waiting_protocols := waiting_protocols s;
             calls := calls s ++ [Protocol_set_others protocol paired;
                                  Protocol_start protocol] |})
    /\ received_message src (RESPONSE protocol false paired) s =
         (inr tt,
          {| memory_manager := memory_manager s;
             rule_manager := rule_manager s;
             protocols := protocols s;
             pending_protocols := before ++ after;
             waiting_protocols := waiting_protocols s;
             calls := calls s ++ [Protocol_release protocol] |}).
Proof.
  intros Hin. destruct (list_remove_elem_of _ _ Hin) as [ps Hps].
  destruct (list_remove_Some_inv _ _ _ Hps) as (before & after & Hb & Hnb & ->).
  exists before, after. split_and!; [done..| |].
  - unfold received_message. run. rewrite Hps. simpl. setters.
    by rewrite <- app_assoc.
  - unfold received_message. run. by rewrite Hps.
Qed.

(** Protocol 3 is pending (behind protocol 2) and node [b] rejects it. *)
Definition two_pending : ResourceManager :=
  {| memory_manager := [];
     rule_manager := [];
     protocols := [];
     pending_protocols := [2; 3];
     waiting_protocols := [];
     calls := [] |}.

Lemma response_settles_pending_witness :
  exists before after,
    [2; 3] = before ++ 3 :: after
    /\ (3 ∉ before)
    /\ received_message "b" (RESPONSE 3 true (Some 8)) two_pending =
         (inr tt,
          {| memory_manager := [];
             rule_manager := [];
             protocols := [3];
             pending_protocols := before ++ after;
             waiting_protocols := [];
             calls := [Protocol_set_others 3 (Some 8); Protocol_start 3] |})
    /\ received_message "b" (RESPONSE 3 false (Some 8)) two_pending =
         (inr tt,
          {| memory_manager := [];
             rule_manager := [];
             protocols := [];
             pending_protocols := before ++ after;
             waiting_protocols := [];
             calls := [Protocol_release 3] |}).
Proof.
  apply (response_settles_pending two_pending "b" 3 (Some 8)).
  simpl. apply elem_of_cons. right. apply elem_of_cons. by left.
Defined.

End ReceivedMessage.

(** *** [load] *)

Section Load.
Import Manager.

(** The states of the memory infos after [load] has evaluated the slots
    below [n]: a slot whose evaluation returned a claim set that is not empty
    is [OCCUPIED], every other slot is as it was. *)
Fixpoint scanned (rule : Rule) (infos : list MemoryState) (n : nat)
  : list MemoryState :=
  match n with
  | 0 => infos
  | S k =>
      let seen := scanned rule infos k in
      if decide (0 < length (is_valid rule k seen))
      then <[k:=OCCUPIED]> seen
      else seen
  end.

(** The calls [load] makes when it evaluates slot [i]. *)
Definition slot_calls (rule : Rule) (infos : list MemoryState) (i : nat)
  : list Call :=
  let claim := is_valid rule i (scanned rule infos i) in
  if decide (0 < length claim)
  then [MemoryInfo_to_occupied i; Rule_do (rule_id rule) claim]
  else [].

Lemma for_each_load_body rule infos k : forall a s,
  memory_manager s = scanned rule infos a ->
  for_each (seq a k) (load_body rule) s =
    (inr tt,
     {| memory_manager := scanned rule infos (a + k);
        rule_manager := rule_manager s;
        protocols := protocols s;
        pending_protocols := pending_protocols s;
        waiting_protocols := waiting_protocols s;
        calls := calls s ++ concat (map (slot_calls rule infos) (seq a k)) |}).
Proof.
  induction k as [|k IH]; intros a s Hs; simpl.
  - rewrite Nat.add_0_r, app_nil_r, <- Hs. by destruct s.
  - unfold mbind, M_bind, load_body at 1. run.
    unfold slot_calls at 1. rewrite Hs.
    replace (a + S k) with (S a + k) by lia.
    destruct (decide (0 < length (is_valid rule a (scanned rule infos a))))
      as [Hm|Hm]; simpl.
    + rewrite IH.
      * simpl. by rewrite <- !app_assoc.
      * simpl. rewrite Hs. by rewrite decide_True.
    + rewrite IH.
      * done.
      * simpl. by rewrite decide_False.
Qed.

Lemma load_eq rule s :
  load rule s =
    (inr true,
     {| memory_manager :=
          scanned rule (memory_manager s) (length (memory_manager s));
        rule_manager := rule_manager s ++ [rule];
        protocols := protocols s;
        pending_protocols := pending_protocols s;
        waiting_protocols := waiting_protocols s;
        calls := calls s ++
                 concat (map (slot_calls rule (memory_manager s))
                           (seq 0 (length (memory_manager s)))) |}).
Proof.
  unfold load. run.
  by rewrite (for_each_load_body rule (memory_manager s)).
Qed.

Lemma scanned_length rule infos n : length (scanned rule infos n) = length infos.
Proof.
  induction n as [|n IH]; simpl; [done|].
  case_decide; [by rewrite length_insert|done].
Qed.

(** A slot is changed by its own evaluation only. *)
Lemma scanned_lookup rule infos n j :
  scanned rule infos n !! j =
    if decide (j < n /\ 0 < length (is_valid rule j (scanned rule infos j)))
    then (fun _ => OCCUPIED) <$> infos !! j
    else infos !! j.
Proof.
  induction n as [|n IH].
  - rewrite decide_False by lia. done.
  - cbn [scanned].
    destruct (decide (j = n)) as [->|Hne].
    + destruct (decide (0 < length (is_valid rule n (scanned rule infos n))))
        as [Hm|Hm].
      * rewrite decide_True by (split; [lia|done]).
        destruct (decide (n < length infos)) as [Hn|Hn].
        -- rewrite list_lookup_insert_eq by (by rewrite scanned_length).
           by destruct (lookup_lt_is_Some_2 infos n Hn) as [x ->].
        -- rewrite list_insert_ge by (rewrite scanned_length; lia).
           rewrite IH. rewrite decide_False by lia.
           by rewrite (lookup_ge_None_2 infos n) by lia.
      * rewrite decide_False by tauto. rewrite IH.
        by rewrite decide_False by lia.
    + assert (Hj : (if decide (0 < length (is_valid rule n (scanned rule infos n)))
                    then <[n:=OCCUPIED]> (scanned rule infos n)
                    else scanned rule infos n) !! j
                   = scanned rule infos n !! j).
      { destruct (decide (0 < length (is_valid rule n (scanned rule infos n))));
          [|done]. by rewrite list_lookup_insert_ne. }
      rewrite Hj, IH.
      destruct (decide (j < n /\ 0 < length (is_valid rule j (scanned rule infos j))))
        as [[? ?]|H1].
      * by rewrite decide_True by (split; [lia|done]).
      * rewrite decide_False; [done|]. intros [? ?]. apply H1. split; [lia|done].
Qed.

(** C5 (as the code has it).  [load(rule)] registers the rule and evaluates
    the predicate on every memory info in slot order, each evaluation seeing
    the marks of the earlier ones.  Whenever the predicate returns a claim
    set that is not empty, the memory being evaluated is marked [OCCUPIED]
    and the rule's action is invoked exactly once on that claim set; a slot
    whose evaluation returns the empty set keeps its state.  Only the
    evaluated memory is marked: evaluating slot [i] changes no other slot,
    whatever the claim set contains. *)
Theorem load_marks_evaluated_memory (rule : Rule) (s : ResourceManager) :
  let infos := memory_manager s in
  let n := length infos in
  load rule s =
    (inr true,
     {| memory_manager := scanned rule infos n;
        rule_manager := rule_manager s ++ [rule];
        protocols := protocols s;
        pending_protocols := pending_protocols s;
        waiting_protocols := waiting_protocols s;
        calls := calls s ++ concat (map (slot_calls rule infos) (seq 0 n)) |})
  /\ (forall i, i < n ->
        let claim := is_valid rule i (scanned rule infos i) in
        (claim <> [] ->
           slot_calls rule infos i =
             [MemoryInfo_to_occupied i; Rule_do (rule_id rule) claim]
           /\ scanned rule infos n !! i = Some OCCUPIED)
        /\ (claim = [] ->
              slot_calls rule infos i = []
              /\ scanned rule infos n !! i = infos !! i))
  /\ (forall i j, j <> i ->
        scanned rule infos (S i) !! j = scanned rule infos i !! j).
Proof.
  intros infos n. split_and!.
  - apply load_eq.
  - intros i Hi claim. split.
    + intros Hclaim.
      assert (0 < length claim) by (destruct claim; simpl; [done|lia]).
      split.
      * unfold slot_calls. by rewrite decide_True.
      * rewrite scanned_lookup, decide_True by done.
        by destruct (lookup_lt_is_Some_2 infos i Hi) as [x ->].
    + intros Hclaim. split.
      * unfold slot_calls. fold claim. by rewrite Hclaim.
      * rewrite scanned_lookup, decide_False; [done|].
        fold claim. rewrite Hclaim. simpl. lia.
  - intros i j Hne. cbn [scanned].
    destruct (decide (0 < length (is_valid rule i (scanned rule infos i))));
      [|done].
    by rewrite list_lookup_insert_ne.
Qed.

(** A rule that, evaluated on slot 0 in state [RAW], claims memories 0
    and 1, and claims nothing otherwise. *)
Definition rule_head_pair : Rule :=
  {| rule_id := 3;
     is_valid := fun i infos =>
       match i, infos !! i with
       | 0, Some RAW => [0; 1]
       | _, _ => []
       end |}.

(** A rule that, evaluated on any memory in state [RAW], claims memories 0
    and 1. *)
Definition rule_raw_pair : Rule :=
  {| rule_id := 4;
     is_valid := fun i infos =>
       match infos !! i with
       | Some RAW => [0; 1]
       | _ => []
       end |}.

(** On two [RAW] memories: [rule_head_pair] claims memories 0 and 1 in one
    invocation and memory 1 is left [RAW]; [rule_raw_pair] is invoked twice
    during one scan, each time on the claim set [0; 1]. *)
Lemma load_claim_set_not_all_occupied :
  (load rule_head_pair (new [RAW; RAW])).2 =
    {| memory_manager := [OCCUPIED; RAW];
       rule_manager := [rule_head_pair];
       protocols := [];
       pending_protocols := [];
       waiting_protocols := [];
       calls := [MemoryInfo_to_occupied 0; Rule_do 3 [0; 1]] |}
  /\ (load rule_raw_pair (new [RAW; RAW])).2 =
       {| memory_manager := [OCCUPIED; OCCUPIED];
          rule_manager := [rule_raw_pair];
          protocols := [];
          pending_protocols := [];
          waiting_protocols := [];
          calls := [MemoryInfo_to_occupied 0; Rule_do 4 [0; 1];
                    MemoryInfo_to_occupied 1; Rule_do 4 [0; 1]] |}.
Proof. split; reflexivity. Qed.

End Load.

(** *** Interleavings of [load] and [update] *)

Section NoDoubleClaim.
Import Manager.

(** A call of [load] or [update] made on the manager by its users. *)
Inductive Op :=
| Load (rule : Rule)
| Update (protocol : Protocol) (memory : Memory) (state : MemoryState).

(** The manager after one call; a call that raises leaves the manager as it
    was when the exception was raised. *)
Definition step (s : ResourceManager) (op : Op) : ResourceManager :=
  match op with
  | Load rule => (load rule s).2
  | Update protocol memory state => (update protocol memory state s).2
  end.

Definition run_ops (ops : list Op) (s : ResourceManager) : ResourceManager :=
  foldl step s ops.

(** Each invocation of a rule's action produces a protocol that claims the
    memories of the claim set; a memory handed to [MemoryManager.update] is
    given back.  [claims m l] counts the invocations recorded in [l] that
    claimed [m] since [m] was last given back. *)
Definition claim_step (m : Memory) (n : nat) (c : Call) : nat :=
  match c with
  | MemoryManager_update memory _ => if decide (memory = m) then 0 else n
  | Rule_do _ memories => if decide (m ∈ memories) then S n else n
  | _ => n
  end.

Definition claims (m : Memory) (l : list Call) : nat :=
  foldl (claim_step m) 0 l.



























(** A rule that claims the memory it is evaluated on in any state claims an
    [OCCUPIED] memory again when it is loaded a second time. *)
Lemma load_claims_occupied_memory :
  let s := run_ops [Load rule_any; Load rule_any] (new [RAW]) in
  memory_manager s !! 0 = Some OCCUPIED
  /\ claims 0 (calls s) = 2.
Proof. repeat split. Qed.

End NoDoubleClaim.

(** *** Admission of protocols *)

Section Admission.
Import Manager.

(** The handles held by the three collections of a manager. *)
Definition handles (s : ResourceManager) : list Protocol :=
  pending_protocols s ++ waiting_protocols s ++ protocols s.

(** Every handle is in at most one collection, and at most once. *)
Definition placed_once (s : ResourceManager) : Prop := NoDup (handles s).

(** The calls made on a manager by its users. *)
Inductive ManagerCall :=
| Call_send_request (protocol : Protocol) (req_dst : option string)
    (req_condition_func : Protocol -> bool)
| Call_received_message (src : string) (msg : ResourceManagerMessage)
| Call_update (protocol : Protocol) (memory : Memory) (state : MemoryState)
| Call_load (rule : Rule).

Definition perform (s : ResourceManager) (c : ManagerCall) : ResourceManager :=
  match c with
  | Call_send_request protocol req_dst f => (send_request protocol req_dst f s).2
  | Call_received_message src msg => (received_message src msg s).2
  | Call_update protocol memory state => (update protocol memory state s).2
  | Call_load rule => (load rule s).2
  end.

Definition perform_all (cs : list ManagerCall) (s : ResourceManager)
  : ResourceManager :=
  foldl perform s cs.

(** The call releases the protocol: [update] by the protocol, or a rejecting
    RESPONSE for it. *)
Definition releases (c : ManagerCall) (q : Protocol) : Prop :=
  match c with
  | Call_update p _ _ => p = q
  | Call_received_message _ (RESPONSE p false _) => p = q
  | _ => False
  end.

(** The call hands the protocol to the manager. *)
Definition admits (c : ManagerCall) (q : Protocol) : Prop :=
  match c with
  | Call_send_request p _ _ => p = q
  | _ => False
  end.

(** Along the calls, [send_request] is only made for a protocol that is in
    none of the collections at that moment. *)
Fixpoint fresh_requests (cs : list ManagerCall) (s : ResourceManager) : Prop :=
  match cs with
  | [] => True
  | c :: cs' =>
      (forall p, admits c p -> p ∉ handles s)
      /\ fresh_requests cs' (perform s c)
  end.

Lemma first_match_split (cond : Protocol -> bool) (l : list Protocol) :
  none_matches cond l
  \/ exists before p after,
       l = before ++ p :: after /\ none_matches cond before /\ cond p = true.
Proof.
  induction l as [|x l IH].
  - left. constructor.
  - destruct (cond x) eqn:Hx.
    + right. exists [], x, l. split_and!; [done|constructor|done].
    + destruct IH as [IH|(before & p & after & -> & Hb & Hp)].
      * left. by constructor.
      * right. exists (x :: before), p, after. split_and!; [done| |done].
        by constructor.
Qed.

Lemma update_rules_collections rules i s :
  let s' := (update_rules rules i s).2 in
  protocols s' = protocols s
  /\ pending_protocols s' = pending_protocols s
  /\ waiting_protocols s' = waiting_protocols s.
Proof.
  induction rules as [|r rules IH]; simpl; [done|].
  run. by destruct (decide (0 < length (is_valid r i (memory_manager s)))).
Qed.

(** What a call does to the handles: it moves them, releases one, or admits
    one. *)
Lemma perform_handles s c :
  handles (perform s c) ≡ₚ handles s
  \/ (exists p, releases c p /\ p :: handles (perform s c) ≡ₚ handles s)
  \/ (exists p, admits c p /\ handles (perform s c) ≡ₚ p :: handles s).
Proof.
  destruct c as [p [dst|] f|src [ini cond|p [] paired]|p memory state|rule];
    unfold handles; cbn [perform releases admits].
  - right. right. exists p. split; [done|]. run. setters. solve_Permutation.
  - right. right. exists p. split; [done|]. run. setters. solve_Permutation.
  - left. destruct (first_match_split cond (waiting_protocols s))
      as [Hnone|(before & q & after & Hw & Hb & Hq)].
    + rewrite received_request_no_match by done. reflexivity.
    + rewrite (received_request_match _ _ _ _ _ _ _ Hw Hb Hq). simpl.
      rewrite Hw. solve_Permutation.
  - left. cbn [received_message]. run.
    destruct (list_remove p (pending_protocols s)) as [ps|] eqn:E; simpl;
      [|reflexivity].
    destruct (list_remove_Some_inv _ _ _ E) as (b & a & -> & _ & ->).
    solve_Permutation.
  - cbn [received_message]. run.
    destruct (list_remove p (pending_protocols s)) as [ps|] eqn:E; simpl;
      [|left; reflexivity].
    destruct (list_remove_Some_inv _ _ _ E) as (b & a & -> & _ & ->).
    right. left. exists p. split; [done|]. solve_Permutation.
  - unfold update. run.
    destruct (decide (memory < length (memory_manager s))); simpl;
      [|left; reflexivity].
    destruct (list_remove p (protocols s)) as [ps|] eqn:E; simpl;
      [|left; reflexivity].
    rewrite decide_True by (by rewrite length_insert). simpl.
    set (s1 := set_protocols _ _).
    destruct (update_rules_collections (rule_manager s) memory s1)
      as (Hp & Hpe & Hw).
    destruct (update_rules (rule_manager s) memory s1) as [[?|[]] s'];
      simpl in *; rewrite Hp, Hpe, Hw;
      destruct (list_remove_Some_inv _ _ _ E) as (b & a & -> & _ & ->);
      right; left; exists p; (split; [done|]); solve_Permutation.
  - left. rewrite load_eq. reflexivity.
Qed.

Lemma perform_placed_once s c :
  placed_once s ->
  (forall p, admits c p -> p ∉ handles s) ->
  placed_once (perform s c).
Proof.
  unfold placed_once. intros Hs Hfresh.
  destruct (perform_handles s c) as [H|[(p & Hp & H)|(p & Hp & H)]].
  - by rewrite H.
  - rewrite <- H in Hs. by apply NoDup_cons in Hs as [_ Hs].
  - rewrite H. apply NoDup_cons. split; [by apply Hfresh|done].
Qed.

Lemma perform_all_placed_once cs : forall s,
  placed_once s -> fresh_requests cs s -> placed_once (perform_all cs s).
Proof.
  induction cs as [|c cs IH]; intros s Hs Hcs; [done|].
  destruct Hcs as [Hc Hcs]. unfold perform_all. simpl.
  apply IH; [|done]. by apply perform_placed_once.
Qed.

Lemma perform_keeps_handle s c q :
  q ∈ handles s -> q ∈ handles (perform s c) \/ releases c q.
Proof.
  intros Hq.
  destruct (perform_handles s c) as [H|[(p & Hp & H)|(p & Hp & H)]].
  - left. by rewrite H.
  - rewrite <- H in Hq. apply elem_of_cons in Hq as [->|Hq]; [by right|by left].
  - left. rewrite H. apply elem_of_cons. by right.
Qed.

(** C4 (as the code has it).  Along any sequence of [send_request],
    [received_message], [update] and [load] calls on a new manager in which
    [send_request] is only called for a protocol that is in none of the
    collections, every handle is in at most one of [pending_protocols],
    [waiting_protocols] and the owner's protocols; a handle that is in one of
    them is still in one of them after the next call unless that call
    releases it ([update] by the protocol, or a rejecting RESPONSE for it);
    and [load] leaves the three collections as they are. *)
Theorem admission_at_most_once (infos : list MemoryState)
    (cs : list ManagerCall) :
  fresh_requests cs (new infos) ->
  let s := perform_all cs (new infos) in
  placed_once s
  /\ (forall c q, q ∈ handles s -> q ∈ handles (perform s c) \/ releases c q)
  /\ (forall rule, handles (perform s (Call_load rule)) = handles s).
Proof.
  intros Hcs s. split_and!.
  - apply perform_all_placed_once; [|done]. constructor.
  - intros c q. apply perform_keeps_handle.
  - intros rule. unfold handles. cbn [perform]. by rewrite load_eq.
Qed.

(** Protocol 1 waits, protocol 2 asks node [b]; a request from node [a]
    pairs protocol 1, and node [b] rejects protocol 2. *)
Lemma admission_at_most_once_witness :
  let cs := [Call_send_request 1 None (fun _ => true);
             Call_send_request 2 (Some "b") (fun _ => true);
             Call_received_message "a" (REQUEST 9 (Nat.eqb 1));
             Call_received_message "b" (RESPONSE 2 false None)] in
  placed_once (perform_all cs (new []))
  /\ handles (perform_all cs (new [])) = [1].
Proof.
  intros cs. split; [|reflexivity].
  apply (admission_at_most_once [] cs).
  simpl. split_and!; try done.
  - intros p <-. unfold handles. simpl. apply not_elem_of_nil.
  - intros p <-. unfold handles. simpl. intros H.
    apply list_elem_of_singleton in H. discriminate.
Defined.

(** [send_request] does not look at the collections: called for protocol 1
    without a destination and then with one, it leaves the protocol both in
    [waiting_protocols] and in [pending_protocols]. *)
Lemma send_request_twice_two_collections :
  let s := perform_all [Call_send_request 1 None (fun _ => true);
                        Call_send_request 1 (Some "b") (fun _ => true)]
             (new []) in
  waiting_protocols s = [1]
  /\ pending_protocols s = [1]
  /\ ~ placed_once s.
Proof.
  split_and!; [reflexivity..|].
  unfold placed_once, handles. simpl. intros H.
  apply NoDup_cons in H as [H _]. apply H. apply elem_of_cons. by left.
Qed.

End Admission.

(** ** Invalid messages and configurations *)

Section InvalidInput.
Import Topo.

Lemma init_unknown_type_raises msg_type kw :
  msg_type <> "REQUEST" -> msg_type <> "RESPONSE" ->
  raises (Manager.__init__ msg_type kw).
Proof.
  intros Hreq Hresp. unfold Manager.__init__, raises.
  destruct (Manager.kwarg (Manager.kw_protocol kw)) as [e|ini]; [by eexists|].
  apply String.eqb_neq in Hreq, Hresp. rewrite Hreq, Hresp. by eexists.
Qed.

Lemma bind_raises {A B} (m : Exc A) (f : A -> Exc B) :
  raises m -> raises (m ≫= f).
Proof. intros [e ->]. by exists e. Qed.

Lemma bind_raises_cont {A B} (m : Exc A) (f : A -> Exc B) :
  (forall a, raises (f a)) -> raises (m ≫= f).
Proof.
  intros Hf. destruct m as [e|a]; [by exists e|apply Hf].
Qed.

(** A node whose group is not below the number of processes stops the
    loop. *)
Lemma add_nodes_loop_group_out_of_range mpi l node :
  node ∈ l ->
  ~ (node_group node < Z.of_nat (Get_size mpi))%Z ->
  forall self, raises (add_nodes_loop mpi l self).
Proof.
  intros Hin Hgroup. induction l as [|x l IH]; intros self.
  - by apply elem_of_nil in Hin.
  - simpl. apply elem_of_cons in Hin as [<-|Hin].
    + apply bind_raises. unfold add_node.
      apply Z.ltb_nlt in Hgroup. rewrite Hgroup. simpl. by eexists.
    + apply bind_raises_cont. intros self'. by apply IH.
Qed.

(** A node of this process whose type is unknown stops the loop. *)
Lemma add_nodes_loop_unknown_type mpi l node :
  node ∈ l ->
  node_group node = Z.of_nat (Get_rank mpi) ->
  node_type node <> BSM_NODE ->
  node_type node <> QUANTUM_ROUTER ->
  forall self, raises (add_nodes_loop mpi l self).
Proof.
  intros Hin Hgroup Hbsm Hrouter. induction l as [|x l IH]; intros self.
  - by apply elem_of_nil in Hin.
  - simpl. apply elem_of_cons in Hin as [<-|Hin].
    + apply bind_raises. unfold add_node.
      destruct (negb _); [by eexists|].
      rewrite Hgroup, Z.eqb_refl.
      apply String.eqb_neq in Hbsm, Hrouter. rewrite Hbsm, Hrouter.
      by eexists.
    + apply bind_raises_cont. intros self'. by apply IH.
Qed.

Lemma add_timeline_process_count mpi config :
  conf_is_parallel config = Some true ->
  conf_process_num config <> Some (Z.of_nat (Get_size mpi)) ->
  raises (_add_timeline mpi config).
Proof.
  intros Hpar Hnum. unfold _add_timeline. rewrite Hpar.
  cbn [default from_option id].
  destruct (conf_process_num config) as [n|];
    cbn [item mbind Exc_bind]; [|by eexists].
  destruct (Z.of_nat (Get_size mpi) =? n)%Z eqn:E; cbn [negb]; [|by eexists].
  apply Z.eqb_eq in E. by rewrite E in Hnum.
Qed.

Lemma add_timeline_unknown_type mpi config groups group :
  conf_is_parallel config = Some true ->
  conf_groups config = Some groups ->
  groups !! Get_rank mpi = Some group ->
  group_type group <> SYNC ->
  group_type group <> ASYNC ->
  raises (_add_timeline mpi config).
Proof.
  intros Hpar Hgroups Hgroup Hsync Hasync.
  unfold _add_timeline. rewrite Hpar. cbn [default from_option id].
  apply bind_raises_cont. intros n.
  destruct (negb _); [by eexists|].
  rewrite Hgroups. cbn [item mbind Exc_bind]. unfold index. rewrite Hgroup.
  cbn [mbind Exc_bind].
  repeat (apply bind_raises_cont; intros ?).
  apply String.eqb_neq in Hsync, Hasync. rewrite Hsync, Hasync. by eexists.
Qed.

(** C8 (as the code has it).  Invalid input raises before anything is
    simulated.  Constructing a [ResourceManagerMessage] with a type other
    than REQUEST or RESPONSE raises.  Loading a topology raises when the
    configuration is parallel and the number of MPI processes differs from
    [process_num]; when a node's group is not less than the number of
    processes; when the configuration is parallel and the timeline type of
    the loading process's own group is unknown; and when a node assigned to
    the loading process's own rank has an unknown type.  The types of the
    groups and nodes of other processes are not looked at. *)
Theorem invalid_input_raises :
  (forall msg_type kw,
      msg_type <> "REQUEST" -> msg_type <> "RESPONSE" ->
      raises (Manager.__init__ msg_type kw))
  /\ (forall mpi config,
        conf_is_parallel config = Some true ->
        conf_process_num config <> Some (Z.of_nat (Get_size mpi)) ->
        raises (_load mpi config))
  /\ (forall mpi config node,
        node ∈ conf_nodes config ->
        ~ (node_group node < Z.of_nat (Get_size mpi))%Z ->
        raises (_load mpi config))
  /\ (forall mpi config groups group,
        conf_is_parallel config = Some true ->
        conf_groups config = Some groups ->
        groups !! Get_rank mpi = Some group ->
        group_type group <> SYNC ->
        group_type group <> ASYNC ->
        raises (_load mpi config))
  /\ (forall mpi config node,
        node ∈ conf_nodes config ->
        node_group node = Z.of_nat (Get_rank mpi) ->
        node_type node <> BSM_NODE ->
        node_type node <> QUANTUM_ROUTER ->
        raises (_load mpi config)).
Proof.
  split_and!.
  - apply init_unknown_type_raises.
  - intros mpi config Hpar Hnum. unfold _load. apply bind_raises.
    by apply add_timeline_process_count.
  - intros mpi config node Hin Hgroup. unfold _load.
    apply bind_raises_cont. intros timeline.
    by eapply add_nodes_loop_group_out_of_range.
  - intros mpi config groups group Hpar Hgroups Hgroup Hsync Hasync.
    unfold _load. apply bind_raises.
    by eapply add_timeline_unknown_type.
  - intros mpi config node Hin Hgroup Hbsm Hrouter. unfold _load.
    apply bind_raises_cont. intros timeline.
    by eapply add_nodes_loop_unknown_type.
Qed.

(** A configuration for two processes with a router in group 0 and one more
    node. *)
Definition two_process_config (groups : list GroupConf) (other : NodeConf)
  : Config :=
  {| conf_stop_time := None;
     conf_is_parallel := Some true;
     conf_process_num := Some 2%Z;
     conf_groups := Some groups;
     conf_lookahead := Some 1000%Z;
     conf_ip := Some "127.0.0.1";
     conf_port := Some 6789%Z;
     conf_nodes := [ {| node_name := "r0"; node_type := "QuantumRouter";
                        node_seed := 0; node_group := 0;
                        node_memo_size := Some 10%Z |};
                     other ];
     conf_qchannels := [] |}.

Definition switch_in_group (group : Z) : NodeConf :=
  {| node_name := "s1"; node_type := "Switch"; node_seed := 1;
     node_group := group; node_memo_size := None |}.

(** The process of rank 0 loads, without raising, a configuration in which
    group 1 holds a node of the unknown type "Switch", and one in which
    group 1 has the unknown timeline type "lazy". *)
Lemma foreign_unknown_types_load :
  (exists topo,
      _load {| Get_rank := 0; Get_size := 2 |}
        (two_process_config [ {| group_type := "sync" |};
                              {| group_type := "sync" |} ]
           (switch_in_group 1)) = inr topo
      /\ foreign_entities topo = [("s1", 1%Z)])
  /\ (exists topo,
        _load {| Get_rank := 0; Get_size := 2 |}
          (two_process_config [ {| group_type := "sync" |};
                                {| group_type := "lazy" |} ]
             {| node_name := "r1"; node_type := "QuantumRouter";
                node_seed := 1; node_group := 1;
                node_memo_size := None |}) = inr topo
        /\ tl topo = Some (ParallelTimeline 1000 "127.0.0.1" 6789 None)).
Proof.
  split; eexists; split; reflexivity.
Qed.

End InvalidInput.

(** ** The "got_bits" message of the swap protocol *)

Section GotBits.
Import Swap.

Lemma getitem_in_range {A} (l : list A) (i : nat) (a : A) :
  l !! i = Some a -> getitem l (Z.of_nat i) = inr a.
Proof.
  intros Hi. unfold getitem, position.
  pose proof (lookup_lt_Some _ _ _ Hi) as Hlt.
  replace ((0 <=? Z.of_nat i)%Z && (Z.of_nat i <? Z.of_nat (length l))%Z)
    with true.
  - cbn [mbind Exc_bind mret Exc_ret]. by rewrite Nat2Z.id, Hi.
  - symmetry. apply andb_true_iff. split; [apply Z.leb_le|apply Z.ltb_lt]; lia.
Qed.

(** C9 (the code departs from it).  For a message whose first token is
    "got_bits" and whose second token is an integer, [received_message]
    raises [TypeError]: it calls the list of tokens instead of reading its
    third element, so nothing is stored in [bit_lengths]. *)
Theorem got_bits_raises_TypeError (int : string -> Exc Z)
    (begin_entanglement_swap received_photons bsm_result
       : Swap -> list string -> Exc Swap)
    (check_bit_lengths : Swap -> Exc Swap)
    (self : Swap) (node_message token : string) (rest : list string)
    (sender : Z) :
  split " " node_message = "got_bits" :: token :: rest ->
  int token = inr sender ->
  received_message int begin_entanglement_swap received_photons bsm_result
    check_bit_lengths self node_message = inl TypeError.
Proof.
  intros Hsplit Hint. unfold received_message. rewrite Hsplit.
  rewrite (getitem_in_range _ 0 "got_bits") by done.
  cbn. unfold got_bits.
  rewrite (getitem_in_range _ 1 token) by done.
  cbn. by rewrite Hint.
Qed.

(** The message "got_bits 0 5" sent by Alice: the code raises, the intended
    field access stores 5 as Alice's bit count. *)
Lemma got_bits_raises_TypeError_witness :
  received_message int_decimal
    (fun self _ => inr self) (fun self _ => inr self) (fun self _ => inr self)
    (fun self => inr self)
    {| bit_lengths := [None; None]; sample_size := 8 |} "got_bits 0 5"
  = inl TypeError
  /\ got_bits_intended int_decimal (fun self => inr self)
       {| bit_lengths := [None; None]; sample_size := 8 |}
       (split " " "got_bits 0 5")
     = inr {| bit_lengths := [Some 5%Z; None]; sample_size := 8 |}.
Proof.
  split; [|reflexivity].
  apply (got_bits_raises_TypeError int_decimal
           (fun self _ => inr self) (fun self _ => inr self)
           (fun self _ => inr self) (fun self => inr self)
           {| bit_lengths := [None; None]; sample_size := 8 |}
           "got_bits 0 5" "0" ["5"] 0%Z); reflexivity.
Defined.

End GotBits.

(** * Further properties *)

(** ** Events: [__ne__], the strict order, the default priority *)

Section EventMore.
Import Event.

(** [Event.__init__(time, process, priority=math.inf)]. *)
Definition Event_init (time : Z) (process : nat) (priority : option priority)
  : Event :=
  {| time := time; prio := default Inf priority; process := process |}.



(** X1.  [!=] is the negation of [==]. *)
Theorem event_ne_is_not_eq (a b : Event) : __ne__ a b = negb (__eq__ a b).
Proof. unfold __ne__, __eq__. by rewrite negb_andb. Qed.


(** X3.  An event built without a priority gets [math.inf]: at its own time it
    is below no event, every event with an integer priority is below it,
    and it compares equal to any other event built without a priority,
    whatever their processes. *)
Theorem event_default_priority_last (t : Z) (process : nat) (e : Event) :
  time e = t ->
  __lt__ (Event_init t process None) e = false
  /\ (forall p, prio e = Finite p ->
                __lt__ e (Event_init t process None) = true)
  /\ (prio e = Inf -> __eq__ (Event_init t process None) e = true).
Proof.
  intros <-. unfold __lt__, __eq__, Event_init. simpl.
  rewrite Z.ltb_irrefl, Z.eqb_refl. simpl. split_and!.
  - done.
  - by intros p ->.
  - by intros ->.
Qed.

Lemma event_default_priority_last_witness :
  __lt__ (Event_init 10 1 None) (Event_init 10 2 (Some (Finite 3))) = false
  /\ (forall p, Finite 3 = Finite p ->
        __lt__ (Event_init 10 2 (Some (Finite 3))) (Event_init 10 1 None)
        = true)
  /\ (Finite 3 = Inf ->
      __eq__ (Event_init 10 1 None) (Event_init 10 2 (Some (Finite 3)))
      = true).
Proof.
  apply (event_default_priority_last 10 1 (Event_init 10 2 (Some (Finite 3)))).
  reflexivity.
Defined.

End EventMore.

(** ** Messages and the negotiation between two managers *)

Section Negotiation.
Import Manager.

(** X4.  What [ResourceManagerMessage.__init__] does with its keywords: without
    [protocol] it raises [KeyError] whatever the type is (also for an unknown
    type); a REQUEST needs [req_condition_fun] and ignores the other
    keywords; a RESPONSE needs [is_approved] and [paired_protocol]; a
    missing keyword raises [KeyError]. *)
Theorem message_init_keywords (msg_type : string) (kw : kwargs) :
  (kw_protocol kw = None -> __init__ msg_type kw = inl KeyError)
  /\ (forall p,
        kw_protocol kw = Some p ->
        (msg_type = "REQUEST" ->
           __init__ msg_type kw =
             match kw_req_condition_fun kw with
             | Some f => inr (REQUEST p f)
             | None => inl KeyError
             end)
        /\ (msg_type = "RESPONSE" ->
              __init__ msg_type kw =
                match kw_is_approved kw, kw_paired_protocol kw with
                | Some a, Some q => inr (RESPONSE p a q)
                | _, _ => inl KeyError
                end)).
Proof.
  split.
  - intros H. unfold __init__. by rewrite H.
  - intros p Hp. unfold __init__. rewrite Hp. simpl. split.
    + intros ->. simpl. by destruct (kw_req_condition_fun kw).
    + intros ->. simpl.
      by destruct (kw_is_approved kw), (kw_paired_protocol kw).
Qed.








(** X7.  A RESPONSE for a protocol that is not pending raises [ValueError], and
    only after the protocol has been bound (approval) or released
    (rejection); the collections are unchanged. *)
Theorem response_not_pending_raises (s : ResourceManager) (src : string)
    (protocol : Protocol) (is_approved : bool) (paired : option Protocol) :
  protocol ∉ pending_protocols s ->
  received_message src (RESPONSE protocol is_approved paired) s =
    (inl ValueError,
     set_calls
       (fun l => l ++ [if is_approved
                       then Protocol_set_others protocol paired
                       else Protocol_release protocol]) s).
Proof.
  intros Hp. apply list_remove_None in Hp.
  unfold received_message. run. destruct is_approved; by rewrite Hp.
Qed.

Lemma response_not_pending_raises_witness :
  received_message "b" (RESPONSE 9 true (Some 4)) two_pending =
    (inl ValueError,
     set_calls (fun l => l ++ [Protocol_set_others 9 (Some 4)]) two_pending).
Proof.
  apply (response_not_pending_raises two_pending "b" 9 true (Some 4)).
  simpl. intros H. apply elem_of_cons in H as [H|H]; [discriminate|].
  apply list_elem_of_singleton in H. discriminate.
Defined.

End Negotiation.

(** ** More on the collections, [load] and [update] *)

Section ManagerMore.
Import Manager.

(** X8.  [list.remove] drops one occurrence only: a protocol that waits twice is
    paired by two successive requests that both find it first, and is
    appended twice to the owner's protocols. *)
Theorem waiting_twice_paired_twice (s : ResourceManager)
    (src1 src2 : string) (ini1 ini2 : Protocol)
    (cond1 cond2 : Protocol -> bool) (p : Protocol)
    (before mid after : list Protocol) :
  waiting_protocols s = before ++ p :: mid ++ p :: after ->
  none_matches cond1 before ->
  cond1 p = true ->
  none_matches cond2 (before ++ mid) ->
  cond2 p = true ->
  let s1 := (received_message src1 (REQUEST ini1 cond1) s).2 in
  let s2 := (received_message src2 (REQUEST ini2 cond2) s1).2 in
  waiting_protocols s2 = before ++ mid ++ after
  /\ protocols s2 = protocols s ++ [p; p]
  /\ calls s2 = calls s ++ [Protocol_set_others p (Some ini1);
                            Owner_send_message src1
                              (RESPONSE ini1 true (Some p));
                            Protocol_start p;
                            Protocol_set_others p (Some ini2);
                            Owner_send_message src2
                              (RESPONSE ini2 true (Some p));
                            Protocol_start p].
Proof.
  intros Hw Hb1 Hp1 Hb2 Hp2 s1 s2. subst s1 s2.
  rewrite (received_request_match _ _ _ _ _ _ _ Hw Hb1 Hp1). cbn [snd].
  rewrite (received_request_match _ src2 ini2 cond2 (before ++ mid) p after).
  - simpl. by rewrite <- !app_assoc.
  - simpl. by rewrite <- app_assoc.
  - done.
  - done.
Qed.

Lemma waiting_twice_paired_twice_witness :
  let s := (send_request 4 None (fun _ => true)
              (send_request 4 None (fun _ => true) (new [])).2).2 in
  let s1 := (received_message "a" (REQUEST 10 (Nat.eqb 4)) s).2 in
  let s2 := (received_message "c" (REQUEST 11 (Nat.eqb 4)) s1).2 in
  waiting_protocols s2 = [] ++ [] ++ []
  /\ protocols s2 = protocols s ++ [4; 4]
  /\ calls s2 = calls s ++ [Protocol_set_others 4 (Some 10);
                            Owner_send_message "a"
                              (RESPONSE 10 true (Some 4));
                            Protocol_start 4;
                            Protocol_set_others 4 (Some 11);
                            Owner_send_message "c"
                              (RESPONSE 11 true (Some 4));
                            Protocol_start 4].
Proof.
  apply (waiting_twice_paired_twice
           (send_request 4 None (fun _ => true)
              (send_request 4 None (fun _ => true) (new [])).2).2
           "a" "c" 10 11 (Nat.eqb 4) (Nat.eqb 4) 4 [] [] []);
    try reflexivity; constructor.
Defined.



End ManagerMore.

Section LoadUpdate.
Import Manager.

(** The number of rule actions invoked in a record of calls. *)
Fixpoint count_rule_do (l : list Call) : nat :=
  match l with
  | [] => 0
  | Rule_do _ _ :: l' => S (count_rule_do l')
  | _ :: l' => count_rule_do l'
  end.

Lemma count_rule_do_app l k :
  count_rule_do (l ++ k) = count_rule_do l + count_rule_do k.
Proof.
  induction l as [|c l IH]; simpl; [done|].
  destruct c; simpl; by rewrite ?IH.
Qed.

Lemma count_rule_do_slots rule infos a k :
  count_rule_do (concat (map (slot_calls rule infos) (seq a k))) <= k.
Proof.
  revert a. induction k as [|k IH]; intros a; simpl; [done|].
  rewrite count_rule_do_app. specialize (IH (S a)).
  unfold slot_calls at 1.
  destruct (decide (0 < length (is_valid rule a (scanned rule infos a))));
    simpl; lia.
Qed.

(** X10.  [load] always returns [True].  It keeps the number of memory infos,
    never frees a memory (each info keeps its state or becomes [OCCUPIED]),
    and invokes the rule's action at most once per memory info: the calls
    it makes are those of the evaluation of slot 0, of slot 1, and so on,
    one evaluation per memory info, and the evaluation of a slot invokes
    the action once when the predicate returns a claim set that is not
    empty and never otherwise.  So the action is invoked at most as many
    times as there are memory infos. *)
Theorem load_never_frees (rule : Rule) (s : ResourceManager) :
  (load rule s).1 = inr true
  /\ length (memory_manager (load rule s).2) = length (memory_manager s)
  /\ (forall j x,
        memory_manager s !! j = Some x ->
        memory_manager (load rule s).2 !! j = Some x
        \/ memory_manager (load rule s).2 !! j = Some OCCUPIED)
  /\ calls (load rule s).2 =
       calls s ++ concat (map (slot_calls rule (memory_manager s))
                            (seq 0 (length (memory_manager s))))
  /\ (forall i,
        count_rule_do (slot_calls rule (memory_manager s) i) <= 1
        /\ (count_rule_do (slot_calls rule (memory_manager s) i) = 1 <->
              is_valid rule i (scanned rule (memory_manager s) i) <> []))
  /\ count_rule_do (calls (load rule s).2)
     <= count_rule_do (calls s) + length (memory_manager s).
Proof.
  rewrite load_eq. cbn [fst snd memory_manager calls]. split_and!.
  - done.
  - apply scanned_length.
  - intros j x Hj. rewrite scanned_lookup, Hj.
    destruct (decide (j < length (memory_manager s) /\ _)); [by right|by left].
  - done.
  - intros i. unfold slot_calls.
    destruct (is_valid rule i (scanned rule (memory_manager s) i)) as [|m ms];
      simpl.
    + split; [lia|]. split; [lia|done].
    + split; [lia|]. split; [done|lia].
  - rewrite count_rule_do_app.
    pose proof (count_rule_do_slots rule (memory_manager s) 0
                  (length (memory_manager s))). lia.
Qed.




End LoadUpdate.

(** ** More on topology loading *)

Section TopoMore.
Import Topo.

(** The sources of the quantum channels that end in [dst], in the order of
    the configuration. *)
Definition sources_into (dst : string) (l : list QChannelConf) : list string :=
  qc_source <$> filter (fun qc => qc_destination qc = dst) l.

Lemma map_bsm_routers_lookup (l : list QChannelConf) (dst : string) :
  forall m : gmap string (list string),
    foldl (fun m qc =>
             let src := qc_source qc in
             let dst := qc_destination qc in
             match m !! dst with
             | Some routers => <[dst := routers ++ [src]]> m
             | None => <[dst := [src]]> m
             end) m l !! dst =
    match m !! dst, sources_into dst l with
    | Some routers, srcs => Some (routers ++ srcs)
    | None, [] => None
    | None, srcs => Some srcs
    end.
Proof.
  unfold sources_into.
  induction l as [|qc l IH]; intros m.
  - simpl. destruct (m !! dst); [by rewrite app_nil_r|done].
  - cbn [foldl]. rewrite IH. clear IH.
    destruct (decide (qc_destination qc = dst)) as [Heq|Hne].
    + rewrite filter_cons_True by done. cbn [fmap list_fmap]. rewrite Heq.
      destruct (m !! dst) as [routers|] eqn:Hm.
      * rewrite lookup_insert_eq. by rewrite <- app_assoc.
      * by rewrite lookup_insert_eq.
    + rewrite filter_cons_False by done.
      destruct (m !! qc_destination qc);
        by rewrite lookup_insert_ne by done.
Qed.

(** X12.  [_map_bsm_routers] on an empty map: a node is a key exactly when some
    quantum channel ends in it, and its entry lists the sources of those
    channels in the order of the configuration. *)
Theorem map_bsm_routers_sources (config : Config) (dst : string) :
  _map_bsm_routers config ∅ !! dst =
    match sources_into dst (conf_qchannels config) with
    | [] => None
    | srcs => Some srcs
    end.
Proof.
  unfold _map_bsm_routers. rewrite map_bsm_routers_lookup.
  by rewrite lookup_empty.
Qed.

(** X13.  A configuration that is not parallel (the key is absent or false) gets
    a sequential timeline with the configured stop time, whatever MPI, the
    groups and the other keys say; nothing is raised. *)
Theorem add_timeline_sequential (mpi : MPI) (config : Config) :
  conf_is_parallel config <> Some true ->
  _add_timeline mpi config = inr (SequentialTimeline (conf_stop_time config)).
Proof.
  intros Hpar. unfold _add_timeline.
  by destruct (conf_is_parallel config) as [[|]|].
Qed.

Definition sequential_config : Config :=
  {| conf_stop_time := Some 1000%Z;
     conf_is_parallel := None;
     conf_process_num := None;
     conf_groups := Some [ {| group_type := "lazy" |} ];
     conf_lookahead := None;
     conf_ip := None;
     conf_port := None;
     conf_nodes := [];
     conf_qchannels := [] |}.

Lemma add_timeline_sequential_witness :
  _add_timeline {| Get_rank := 3; Get_size := 7 |} sequential_config =
    inr (SequentialTimeline (Some 1000%Z)).
Proof.
  apply (add_timeline_sequential {| Get_rank := 3; Get_size := 7 |}
           sequential_config).
  discriminate.
Defined.

(** X14.  A parallel configuration gets a timeline exactly when [process_num] is
    the number of processes, the group of the process's rank exists and has
    type "sync" or "async", and [lookahead], [ip] and [port] are present;
    the timeline is then the parallel one of that type with these values. *)
Theorem add_timeline_parallel_returns (mpi : MPI) (config : Config)
    (timeline : Timeline) :
  conf_is_parallel config = Some true ->
  _add_timeline mpi config = inr timeline <->
  exists groups group lookahead ip port,
    conf_process_num config = Some (Z.of_nat (Get_size mpi))
    /\ conf_groups config = Some groups
    /\ groups !! Get_rank mpi = Some group
    /\ conf_lookahead config = Some lookahead
    /\ conf_ip config = Some ip
    /\ conf_port config = Some port
    /\ ((group_type group = SYNC
         /\ timeline = ParallelTimeline lookahead ip port
                         (conf_stop_time config))
        \/ (group_type group = ASYNC
            /\ timeline = AsyncParallelTimeline lookahead ip port
                            (conf_stop_time config))).
Proof.
  intros Hpar. unfold _add_timeline. rewrite Hpar.
  cbn [default from_option id]. split.
  - destruct (conf_process_num config) as [n|];
      cbn [item mbind Exc_bind]; [|done].
    destruct (Z.eqb_spec (Z.of_nat (Get_size mpi)) n) as [<-|Hne];
      cbn [negb]; [|done].
    destruct (conf_groups config) as [groups|];
      cbn [item mbind Exc_bind]; [|done].
    unfold index.
    destruct (groups !! Get_rank mpi) as [group|] eqn:Hg;
      cbn [mbind Exc_bind]; [|done].
    destruct (conf_lookahead config) as [lookahead|];
      cbn [item mbind Exc_bind]; [|done].
    destruct (conf_ip config) as [ip|]; cbn [item mbind Exc_bind]; [|done].
    destruct (conf_port config) as [port|];
      cbn [item mbind Exc_bind]; [|done].
    destruct (String.eqb_spec (group_type group) SYNC) as [Hs|Hs].
    + intros [= <-]. exists groups, group, lookahead, ip, port.
      split_and!; [done..|]. by left.
    + destruct (String.eqb_spec (group_type group) ASYNC) as [Ha|Ha];
        [|done].
      intros [= <-]. exists groups, group, lookahead, ip, port.
      split_and!; [done..|]. by right.
  - intros (groups & group & lookahead & ip & port
            & -> & -> & Hg & -> & -> & -> & H).
    cbn [item mbind Exc_bind]. rewrite Z.eqb_refl. cbn [negb].
    unfold index. rewrite Hg. cbn [mbind Exc_bind].
    destruct H as [[Hs ->]|[Ha ->]].
    + by rewrite Hs.
    + rewrite Ha. done.
Qed.

Lemma add_timeline_parallel_returns_witness :
  _add_timeline {| Get_rank := 1; Get_size := 2 |}
    (two_process_config [ {| group_type := "sync" |};
                          {| group_type := "async" |} ]
       (switch_in_group 0))
  = inr (AsyncParallelTimeline 1000 "127.0.0.1" 6789 None) <->
  exists groups group lookahead ip port,
    Some 2%Z = Some (Z.of_nat 2)
    /\ Some [ {| group_type := "sync" |}; {| group_type := "async" |} ]
       = Some groups
    /\ groups !! 1 = Some group
    /\ Some 1000%Z = Some lookahead
    /\ Some "127.0.0.1" = Some ip
    /\ Some 6789%Z = Some port
    /\ ((group_type group = SYNC
         /\ AsyncParallelTimeline 1000 "127.0.0.1" 6789 None
            = ParallelTimeline lookahead ip port None)
        \/ (group_type group = ASYNC
            /\ AsyncParallelTimeline 1000 "127.0.0.1" 6789 None
               = AsyncParallelTimeline lookahead ip port None)).
Proof.
  apply (add_timeline_parallel_returns {| Get_rank := 1; Get_size := 2 |}
           (two_process_config [ {| group_type := "sync" |};
                                 {| group_type := "async" |} ]
              (switch_in_group 0))
           (AsyncParallelTimeline 1000 "127.0.0.1" 6789 None)).
  reflexivity.
Defined.

End TopoMore.

(** *** What [_add_nodes] builds *)

Section AddNodes.
Import Topo.

(** The router built for a node entry: a memory size that is absent or 0
    gives the router its default memory array. *)
Definition router_of (node : NodeConf) : NodeObj :=
  QuantumRouter (node_name node)
    (match node_memo_size node with
     | Some 0%Z | None => None
     | Some n => Some n
     end)
    (node_seed node).

Definition bsm_node_of (m : gmap string (list string)) (node : NodeConf)
  : NodeObj :=
  BSMNode (node_name node) (default [] (m !! node_name node)) (node_seed node).

Definition foreign_of (node : NodeConf) : string * Z :=
  (node_name node, node_group node).

(** Append to the list stored under a key, as [_add_nodes] does. *)
Definition append_under (type : string) (obj : NodeObj)
    (nodes : gmap string (list NodeObj)) : gmap string (list NodeObj) :=
  match nodes !! type with
  | Some l => <[type := l ++ [obj]]> nodes
  | None => <[type := [obj]]> nodes
  end.

Lemma append_under_lookup type obj nodes key :
  default [] (append_under type obj nodes !! key) =
    if decide (key = type)
    then default [] (nodes !! key) ++ [obj]
    else default [] (nodes !! key).
Proof.
  unfold append_under. destruct (decide (key = type)) as [->|Hne].
  - destruct (nodes !! type); by rewrite lookup_insert_eq.
  - destruct (nodes !! type); by rewrite lookup_insert_ne.
Qed.

(** The cases in which the body of the loop returns. *)
Lemma add_node_returns mpi self node self' :
  add_node mpi self node = inr self' ->
  (node_group node < Z.of_nat (Get_size mpi))%Z
  /\ ((node_group node <> Z.of_nat (Get_rank mpi)
       /\ self' = {| tl := tl self;
                     bsm_to_router_map := bsm_to_router_map self;
                     nodes := nodes self;
                     foreign_entities :=
                       foreign_entities self ++ [foreign_of node] |})
      \/ (node_group node = Z.of_nat (Get_rank mpi)
          /\ node_type node = BSM_NODE
          /\ is_Some (bsm_to_router_map self !! node_name node)
          /\ self' = {| tl := tl self;
                        bsm_to_router_map := bsm_to_router_map self;
                        nodes := append_under BSM_NODE
                                   (bsm_node_of (bsm_to_router_map self) node)
                                   (nodes self);
                        foreign_entities := foreign_entities self |})
      \/ (node_group node = Z.of_nat (Get_rank mpi)
          /\ node_type node = QUANTUM_ROUTER
          /\ self' = {| tl := tl self;
                        bsm_to_router_map := bsm_to_router_map self;
                        nodes := append_under QUANTUM_ROUTER (router_of node)
                                   (nodes self);
                        foreign_entities := foreign_entities self |})).
Proof.
  unfold add_node.
  destruct (Z.ltb_spec (node_group node) (Z.of_nat (Get_size mpi)))
    as [Hlt|Hge]; cbn [negb]; [|done].
  intros H. split; [done|].
  destruct (Z.eqb_spec (node_group node) (Z.of_nat (Get_rank mpi)))
    as [Heq|Hne].
  - right.
    destruct (String.eqb_spec (node_type node) BSM_NODE) as [Hb|Hb].
    + left.
      destruct (bsm_to_router_map self !! node_name node) as [others|] eqn:E;
        cbn in H; [|done].
      injection H as <-. split_and!; [done..|by eexists|].
      unfold append_under, bsm_node_of. by rewrite E, Hb.
    + destruct (String.eqb_spec (node_type node) QUANTUM_ROUTER) as [Hq|Hq];
        [|done].
      right. split_and!; [done..|].
      unfold append_under, router_of. rewrite <- Hq.
      destruct (node_memo_size node) as [[|n|n]|]; cbn in H;
        by injection H as <-.
  - left. cbn in H. injection H as <-. by split.
Qed.

Lemma BSM_NODE_ne_QUANTUM_ROUTER : BSM_NODE <> QUANTUM_ROUTER.
Proof. discriminate. Qed.

Lemma add_nodes_loop_returns mpi l : forall self self',
  add_nodes_loop mpi l self = inr self' ->
  let rank := Z.of_nat (Get_rank mpi) in
  let m := bsm_to_router_map self in
  Forall (fun node => (node_group node < Z.of_nat (Get_size mpi))%Z) l
  /\ tl self' = tl self
  /\ bsm_to_router_map self' = m
  /\ foreign_entities self' =
       foreign_entities self
       ++ (foreign_of <$> filter (fun node => node_group node <> rank) l)
  /\ default [] (nodes self' !! QUANTUM_ROUTER) =
       default [] (nodes self !! QUANTUM_ROUTER)
       ++ (router_of <$>
             filter (fun node => node_group node = rank
                                 /\ node_type node = QUANTUM_ROUTER) l)
  /\ default [] (nodes self' !! BSM_NODE) =
       default [] (nodes self !! BSM_NODE)
       ++ (bsm_node_of m <$>
             filter (fun node => node_group node = rank
                                 /\ node_type node = BSM_NODE) l)
  /\ Forall (fun node =>
               node_group node = rank ->
               node_type node = QUANTUM_ROUTER
               \/ (node_type node = BSM_NODE
                   /\ is_Some (m !! node_name node))) l.
Proof.
  induction l as [|node l IH]; intros self self' H rank m.
  - injection H as <-. rewrite !app_nil_r. split_and!; done.
  - cbn [add_nodes_loop] in H.
    destruct (add_node mpi self node) as [e|self1] eqn:E;
      cbn [mbind Exc_bind] in H; [done|].
    apply add_node_returns in E as [Hlt Hcases].
    specialize (IH self1 self' H). cbn zeta in IH.
    destruct IH as (Hall & Htl & Hmap & Hf & Hq & Hb & Hknown).
    fold rank in Hcases, Hf, Hq, Hb, Hknown.
    destruct Hcases as [[Hne ->]|[(Heq & Hty & Hsome & ->)|(Heq & Hty & ->)]];
      cbn [tl bsm_to_router_map nodes foreign_entities] in *;
      fold m in Hknown, Hb.
    + split_and!; [by constructor|done|done| | | |].
      * rewrite filter_cons_True by done. cbn [fmap list_fmap].
        by rewrite Hf, <- app_assoc.
      * rewrite filter_cons_False by tauto. done.
      * rewrite filter_cons_False by tauto. done.
      * constructor; [tauto|done].
    + split_and!; [by constructor|done|done| | | |].
      * rewrite filter_cons_False by tauto. done.
      * rewrite filter_cons_False.
        -- rewrite Hq, append_under_lookup.
           by rewrite decide_False by (symmetry; apply BSM_NODE_ne_QUANTUM_ROUTER).
        -- rewrite Hty. intros [_ Hbad]. by apply BSM_NODE_ne_QUANTUM_ROUTER.
      * rewrite filter_cons_True by done. cbn [fmap list_fmap].
        rewrite Hb, append_under_lookup, decide_True by done.
        by rewrite <- app_assoc.
      * constructor; [|done]. intros _. right. by split.
    + split_and!; [by constructor|done|done| | | |].
      * rewrite filter_cons_False by tauto. done.
      * rewrite filter_cons_True by done. cbn [fmap list_fmap].
        rewrite Hq, append_under_lookup, decide_True by done.
        by rewrite <- app_assoc.
      * rewrite filter_cons_False.
        -- rewrite Hb, append_under_lookup.
           by rewrite decide_False by apply BSM_NODE_ne_QUANTUM_ROUTER.
        -- rewrite Hty. intros [_ Hbad].
           by apply BSM_NODE_ne_QUANTUM_ROUTER.
      * constructor; [|done]. intros _. by left.
Qed.

Lemma map_bsm_routers_default config name :
  default [] (_map_bsm_routers config ∅ !! name) =
    sources_into name (conf_qchannels config).
Proof.
  unfold _map_bsm_routers. rewrite map_bsm_routers_lookup, lookup_empty.
  by destruct (sources_into name (conf_qchannels config)).
Qed.

(** X15.  When loading returns, every configured node has been dealt with exactly
    once, in the order of the configuration: the nodes of other groups are
    registered as foreign entities with their group, the routers of the
    process's own rank are built (a memory size of 0 counts as absent), and
    its BSM nodes are built with the sources of the quantum channels that
    end in them.  Every group is below the number of processes and every
    own node is a router or a BSM node. *)
Theorem load_partitions_nodes (mpi : MPI) (config : Config)
    (topo : RouterNetTopo) :
  _load mpi config = inr topo ->
  let rank := Z.of_nat (Get_rank mpi) in
  Forall (fun node => (node_group node < Z.of_nat (Get_size mpi))%Z)
    (conf_nodes config)
  /\ foreign_entities topo =
       foreign_of <$>
         filter (fun node => node_group node <> rank) (conf_nodes config)
  /\ default [] (nodes topo !! QUANTUM_ROUTER) =
       router_of <$>
         filter (fun node => node_group node = rank
                             /\ node_type node = QUANTUM_ROUTER)
           (conf_nodes config)
  /\ default [] (nodes topo !! BSM_NODE) =
       (fun node =>
          BSMNode (node_name node)
            (sources_into (node_name node) (conf_qchannels config))
            (node_seed node)) <$>
         filter (fun node => node_group node = rank
                             /\ node_type node = BSM_NODE)
           (conf_nodes config)
  /\ Forall (fun node =>
               node_group node = rank ->
               node_type node = QUANTUM_ROUTER \/ node_type node = BSM_NODE)
       (conf_nodes config).
Proof.
  intros H rank. unfold _load in H.
  destruct (_add_timeline mpi config) as [e|timeline];
    cbn [mbind Exc_bind] in H; [done|].
  unfold _add_nodes in H. apply add_nodes_loop_returns in H.
  cbn [tl bsm_to_router_map nodes foreign_entities] in H.
  destruct H as (Hall & _ & _ & Hf & Hq & Hb & Hknown).
  rewrite lookup_empty in Hq, Hb. simpl in Hq, Hb, Hf.
  split_and!; [done..| |].
  - rewrite Hb. apply list_fmap_ext. intros i node _.
    unfold bsm_node_of. by rewrite map_bsm_routers_default.
  - eapply Forall_impl; [exact Hknown|]. simpl. tauto.
Qed.

(** A configuration of two processes: a router on each, and a BSM node on
    process 1 between them. *)
Definition line_config : Config :=
  {| conf_stop_time := None;
     conf_is_parallel := Some true;
     conf_process_num := Some 2%Z;
     conf_groups := Some [ {| group_type := "sync" |};
                           {| group_type := "sync" |} ];
     conf_lookahead := Some 1000%Z;
     conf_ip := Some "127.0.0.1";
     conf_port := Some 6789%Z;
     conf_nodes := [ {| node_name := "r0"; node_type := "QuantumRouter";
                        node_seed := 0; node_group := 0;
                        node_memo_size := Some 0%Z |};
                     {| node_name := "bsm"; node_type := "BSMNode";
                        node_seed := 1; node_group := 1;
                        node_memo_size := None |};
                     {| node_name := "r1"; node_type := "QuantumRouter";
                        node_seed := 2; node_group := 1;
                        node_memo_size := Some 20%Z |} ];
     conf_qchannels := [ {| qc_source := "r0"; qc_destination := "bsm" |};
                         {| qc_source := "r1"; qc_destination := "bsm" |} ] |}.

Lemma load_partitions_nodes_witness :
  exists topo,
    _load {| Get_rank := 1; Get_size := 2 |} line_config = inr topo
    /\ foreign_entities topo = [("r0", 0%Z)]
    /\ default [] (nodes topo !! QUANTUM_ROUTER)
       = [QuantumRouter "r1" (Some 20%Z) 2]
    /\ default [] (nodes topo !! BSM_NODE) = [BSMNode "bsm" ["r0"; "r1"] 1].
Proof.
  destruct (_load {| Get_rank := 1; Get_size := 2 |} line_config)
    as [e|topo] eqn:E; [by vm_compute in E|].
  exists topo. split; [done|].
  destruct (load_partitions_nodes _ _ _ E) as (_ & Hf & Hq & Hb & _).
  by rewrite Hf, Hq, Hb.
Defined.

(** X16.  A BSM node of the process's own rank in which no quantum channel ends
    makes loading raise: its entry in [bsm_to_router_map] is missing. *)
Theorem load_bsm_without_channel_raises (mpi : MPI) (config : Config)
    (node : NodeConf) :
  node ∈ conf_nodes config ->
  node_group node = Z.of_nat (Get_rank mpi) ->
  node_type node = BSM_NODE ->
  sources_into (node_name node) (conf_qchannels config) = [] ->
  raises (_load mpi config).
Proof.
  intros Hin Hgroup Htype Hnone. unfold _load.
  destruct (_add_timeline mpi config) as [e|timeline];
    cbn [mbind Exc_bind]; [by eexists|].
  unfold _add_nodes.
  destruct (add_nodes_loop mpi (conf_nodes config) _) as [e|topo] eqn:E;
    [by eexists|].
  apply add_nodes_loop_returns in E.
  cbn [tl bsm_to_router_map nodes foreign_entities] in E.
  destruct E as (_ & _ & _ & _ & _ & _ & Hknown).
  rewrite Forall_forall in Hknown.
  destruct (Hknown node Hin Hgroup) as [Hq|[_ [others Hsome]]].
  - rewrite Htype in Hq. by destruct BSM_NODE_ne_QUANTUM_ROUTER.
  - unfold _map_bsm_routers in Hsome.
    rewrite map_bsm_routers_lookup, lookup_empty, Hnone in Hsome. done.
Qed.

Lemma load_bsm_without_channel_raises_witness :
  raises (_load {| Get_rank := 0; Get_size := 1 |}
            {| conf_stop_time := None;
               conf_is_parallel := None;
               conf_process_num := None;
               conf_groups := None;
               conf_lookahead := None;
               conf_ip := None;
               conf_port := None;
               conf_nodes := [ {| node_name := "bsm"; node_type := "BSMNode";
                                  node_seed := 1; node_group := 0;
                                  node_memo_size := None |} ];
               conf_qchannels := [] |}).
Proof.
  eapply (load_bsm_without_channel_raises {| Get_rank := 0; Get_size := 1 |} _
            {| node_name := "bsm"; node_type := "BSMNode";
               node_seed := 1; node_group := 0; node_memo_size := None |}).
  - simpl. apply list_elem_of_singleton. done.
  - reflexivity.
  - reflexivity.
  - reflexivity.
Defined.

End AddNodes.

(** *** [_add_bsm_node_to_router] *)

Section AddBsmNodeToRouter.
Import Topo.

(** [r0_str, r1_str = l]: unpacking a list that does not have exactly two
    elements raises [ValueError]. *)
Definition unpack_pair (l : list string) : Exc (string * string) :=
  match l with
  | [r0; r1] => inr (r0, r1)
  | _ => inl ValueError
  end.

(** A call [router.add_bsm_node(bsm, other)] on a router of this process. *)
Inductive RouterCall :=
| add_bsm_node (router bsm other : string).

(** The body of the loop for one key.  [is_local name] says whether
    [tl.get_entity_by_name(name)] finds an entity of this process (it
    returns [None] for a foreign one); the router method is outside the
    embedding and is a recorded call. *)
Definition add_bsm_node_body (is_local : string -> bool)
    (m : gmap string (list string)) (done_calls : list RouterCall)
    (bsm : string) : Exc (list RouterCall) :=
  routers ← item (m !! bsm);
  '(r0_str, r1_str) ← unpack_pair routers;
  let calls0 := if is_local r0_str
                then done_calls ++ [add_bsm_node r0_str bsm r1_str]
                else done_calls in
  let calls1 := if is_local r1_str
                then calls0 ++ [add_bsm_node r1_str bsm r0_str]
                else calls0 in
  mret calls1.

(** The loop over the dictionary; [keys] are its keys in the order in which
    it is traversed. *)
Fixpoint add_bsm_node_loop (is_local : string -> bool)
    (m : gmap string (list string)) (keys : list string)
    (done_calls : list RouterCall) : Exc (list RouterCall) :=
  match keys with
  | [] => mret done_calls
  | bsm :: rest =>
      calls ← add_bsm_node_body is_local m done_calls bsm;
      add_bsm_node_loop is_local m rest calls
  end.

Definition _add_bsm_node_to_router (is_local : string -> bool)
    (self : RouterNetTopo) (keys : list string) : Exc (list RouterCall) :=
  add_bsm_node_loop is_local (bsm_to_router_map self) keys [].

Lemma add_bsm_node_loop_bad_key is_local m keys bsm routers :
  bsm ∈ keys ->
  m !! bsm = Some routers ->
  length routers <> 2 ->
  (forall key, key ∈ keys -> is_Some (m !! key)) ->
  forall done_calls,
    add_bsm_node_loop is_local m keys done_calls = inl ValueError.
Proof.
  intros Hin Hm Hlen Hkeys.
  induction keys as [|key keys IH]; intros done_calls.
  - by apply elem_of_nil in Hin.
  - cbn [add_bsm_node_loop].
    destruct (Hkeys key) as [l Hl]; [apply elem_of_cons; by left|].
    unfold add_bsm_node_body at 1. rewrite Hl. cbn [item mbind Exc_bind].
    destruct l as [|r0 [|r1 [|r2 l]]]; try done.
    cbn [unpack_pair mbind Exc_bind mret Exc_ret].
    apply elem_of_cons in Hin as [->|Hin].
    + rewrite Hm in Hl. injection Hl as ->. done.
    + apply IH; [done|]. intros k Hk. apply Hkeys. apply elem_of_cons.
      by right.
Qed.

(** X17.  A node in which a number of quantum channels other than two ends makes
    [_add_bsm_node_to_router] raise [ValueError] when it unpacks the node's
    routers, in whatever order the dictionary is traversed. *)
Theorem bsm_needs_two_routers (is_local : string -> bool) (config : Config)
    (self : RouterNetTopo) (keys : list string) (bsm : string) :
  bsm_to_router_map self = _map_bsm_routers config ∅ ->
  (forall key, key ∈ keys <-> is_Some (bsm_to_router_map self !! key)) ->
  sources_into bsm (conf_qchannels config) <> [] ->
  length (sources_into bsm (conf_qchannels config)) <> 2 ->
  _add_bsm_node_to_router is_local self keys = inl ValueError.
Proof.
  intros Hmap Hkeys Hsome Hlen. unfold _add_bsm_node_to_router.
  assert (Hbsm : bsm_to_router_map self !! bsm
                 = Some (sources_into bsm (conf_qchannels config))).
  { rewrite Hmap. unfold _map_bsm_routers.
    rewrite map_bsm_routers_lookup, lookup_empty.
    by destruct (sources_into bsm (conf_qchannels config)). }
  eapply add_bsm_node_loop_bad_key; [|exact Hbsm|done|].
  - apply Hkeys. by eexists.
  - intros key Hk. by apply Hkeys.
Qed.

(** Only one quantum channel ends in the BSM node. *)
Definition one_channel_config : Config :=
  {| conf_stop_time := None;
     conf_is_parallel := None;
     conf_process_num := None;
     conf_groups := None;
     conf_lookahead := None;
     conf_ip := None;
     conf_port := None;
     conf_nodes := [];
     conf_qchannels := [ {| qc_source := "r0"; qc_destination := "bsm" |} ] |}.

Lemma bsm_needs_two_routers_witness :
  _add_bsm_node_to_router (fun _ => true)
    {| tl := None;
       bsm_to_router_map := _map_bsm_routers one_channel_config ∅;
       nodes := ∅;
       foreign_entities := [] |} ["bsm"] = inl ValueError.
Proof.
  apply (bsm_needs_two_routers (fun _ => true) one_channel_config _ ["bsm"]
           "bsm").
  - reflexivity.
  - intros key. cbn [bsm_to_router_map]. unfold _map_bsm_routers.
    rewrite map_bsm_routers_lookup, lookup_empty.
    rewrite list_elem_of_singleton. unfold sources_into. simpl.
    destruct (decide ("bsm" = key)) as [<-|Hne].
    + rewrite filter_cons_True by done. simpl. split; [by eexists|done].
    + rewrite filter_cons_False by done. simpl. split; [congruence|].
      intros [? ?]. done.
  - discriminate.
  - simpl. lia.
Defined.

(** When every node has exactly two routers, each router of the process is
    told, for each of its BSM nodes, the router at the other end. *)
Theorem bsm_with_two_routers_links_both (is_local : string -> bool)
    (m : gmap string (list string)) (bsm r0 r1 : string)
    (done_calls : list RouterCall) :
  m !! bsm = Some [r0; r1] ->
  add_bsm_node_body is_local m done_calls bsm =
    inr (done_calls
         ++ (if is_local r0 then [add_bsm_node r0 bsm r1] else [])
         ++ (if is_local r1 then [add_bsm_node r1 bsm r0] else [])).
Proof.
  intros Hm. unfold add_bsm_node_body. rewrite Hm. simpl.
  destruct (is_local r0), (is_local r1); simpl;
    by rewrite <- ?app_assoc, ?app_nil_r.
Qed.

Lemma bsm_with_two_routers_links_both_witness :
  add_bsm_node_body (String.eqb "r1")
    (_map_bsm_routers line_config ∅) [] "bsm" =
    inr ([] ++ (if String.eqb "r1" "r0"
                then [add_bsm_node "r0" "bsm" "r1"] else [])
            ++ (if String.eqb "r1" "r1"
                then [add_bsm_node "r1" "bsm" "r0"] else [])).
Proof.
  apply (bsm_with_two_routers_links_both (String.eqb "r1")
           (_map_bsm_routers line_config ∅) "bsm" "r0" "r1" []).
  reflexivity.
Defined.

End AddBsmNodeToRouter.

(** ** The error count of the swap protocol *)

Section ErrorCount.

(** The loop that counts the errors at the end of the "got_bits" branch:
    [while bit_diff: bit_diff &= bit_diff - 1; num_errors += 1].  Python's
    integers are unbounded, and [&] on them is [Z.land].  The loop need not
    end, so it is run with fuel; [None] means the fuel ran out. *)
Fixpoint count_errors_loop (fuel : nat) (bit_diff num_errors : Z) : option Z :=
  match fuel with
  | 0 => None
  | S fuel' =>
      if (bit_diff =? 0)%Z then Some num_errors
      else count_errors_loop fuel' (Z.land bit_diff (bit_diff - 1))
             (num_errors + 1)
  end.

(** [int("".join(str(x) for x in bit_list), 2)] for a list of bits, most
    significant bit first.  (An empty list makes [int] raise.) *)
Definition bits_value (bit_list : list bool) : Z :=
  foldl (fun acc (b : bool) => (2 * acc + Z.b2z b)%Z) 0%Z bit_list.

(** The number of ones in the binary notation of a natural number. *)
Fixpoint Pos_popcount (p : positive) : nat :=
  match p with
  | xH => 1
  | xO q => Pos_popcount q
  | xI q => S (Pos_popcount q)
  end.

Definition popcount (z : Z) : nat :=
  match z with
  | Zpos p => Pos_popcount p
  | _ => 0
  end.

(** The number of positions at which two bit lists differ. *)
Fixpoint differences (a b : list bool) : nat :=
  match a, b with
  | x :: a', y :: b' => (if xorb x y then 1 else 0) + differences a' b'
  | _, _ => 0
  end.

Lemma popcount_double_bit (z : Z) (b : bool) :
  (0 <= z)%Z ->
  popcount (2 * z + Z.b2z b) = popcount z + (if b then 1 else 0).
Proof.
  intros Hz. destruct z as [|p|p]; [by destruct b| |lia].
  destruct b; cbn [Z.b2z].
  - replace (2 * Z.pos p + 1)%Z with (Z.pos p~1) by lia. simpl. lia.
  - replace (2 * Z.pos p + 0)%Z with (Z.pos p~0) by lia. simpl. lia.
Qed.

Lemma land_double_bits (a b : Z) (x y : bool) :
  Z.land (2 * a + Z.b2z x) (2 * b + Z.b2z y)
  = (2 * Z.land a b + Z.b2z (x && y))%Z.
Proof.
  apply Z.bits_inj'. intros n Hn.
  rewrite Z.land_spec.
  destruct (Z.eq_dec n 0%Z) as [->|Hne].
  - rewrite !(Z.add_comm (2 * _)), !Z.add_b2z_double_bit0. done.
  - replace n with (Z.succ (n - 1)%Z) by lia.
    rewrite !Z.testbit_succ_r by lia.
    by rewrite Z.land_spec.
Qed.

Lemma lxor_double_bits (a b : Z) (x y : bool) :
  Z.lxor (2 * a + Z.b2z x) (2 * b + Z.b2z y)
  = (2 * Z.lxor a b + Z.b2z (xorb x y))%Z.
Proof.
  apply Z.bits_inj'. intros n Hn.
  rewrite Z.lxor_spec.
  destruct (Z.eq_dec n 0%Z) as [->|Hne].
  - rewrite !(Z.add_comm (2 * _)), !Z.add_b2z_double_bit0. done.
  - replace n with (Z.succ (n - 1)%Z) by lia.
    rewrite !Z.testbit_succ_r by lia.
    by rewrite Z.lxor_spec.
Qed.

(** One round of the loop clears the lowest one. *)
Lemma land_pred_popcount (p : positive) :
  (0 <= Z.land (Zpos p) (Zpos p - 1))%Z
  /\ S (popcount (Z.land (Zpos p) (Zpos p - 1))) = Pos_popcount p.
Proof.
  induction p as [q IH|q IH|].
  - replace (Zpos q~1) with (2 * Zpos q + Z.b2z true)%Z by (simpl; lia).
    replace (2 * Zpos q + Z.b2z true - 1)%Z
      with (2 * Zpos q + Z.b2z false)%Z by (simpl; lia).
    rewrite land_double_bits, Z.land_diag. simpl. split; [lia|done].
  - replace (Zpos q~0) with (2 * Zpos q + Z.b2z false)%Z by (simpl; lia).
    replace (2 * Zpos q + Z.b2z false - 1)%Z
      with (2 * (Zpos q - 1) + Z.b2z true)%Z by (simpl; lia).
    rewrite land_double_bits. destruct IH as [Hpos Hcount].
    cbn [andb Z.b2z]. split; [lia|].
    change 0%Z with (Z.b2z false) at 1.
    rewrite popcount_double_bit by done. cbn [Pos_popcount]. lia.
  - split; [by vm_compute|reflexivity].
Qed.

Lemma count_errors_loop_S fuel bit_diff num_errors :
  count_errors_loop (S fuel) bit_diff num_errors =
    if (bit_diff =? 0)%Z then Some num_errors
    else count_errors_loop fuel (Z.land bit_diff (bit_diff - 1))
           (num_errors + 1).
Proof. reflexivity. Qed.

Lemma count_errors_loop_popcount (k : nat) : forall bit_diff num_errors extra,
  (0 <= bit_diff)%Z ->
  popcount bit_diff = k ->
  count_errors_loop (S k + extra) bit_diff num_errors
  = Some (num_errors + Z.of_nat k)%Z.
Proof.
  induction k as [|k IH]; intros bit_diff num_errors extra Hpos Hk.
  - destruct bit_diff as [|p|p]; [|exfalso|lia].
    + simpl. f_equal. lia.
    + simpl in Hk. destruct p; simpl in Hk; try lia.
      clear -Hk. induction p; simpl in Hk; try lia; auto.
  - destruct bit_diff as [|p|p]; [done| |lia].
    change (S (S k) + extra) with (S (S k + extra)).
    rewrite count_errors_loop_S. cbn [Z.eqb].
    destruct (land_pred_popcount p) as [Hpos' Hcount].
    assert (Hk' : popcount (Z.land (Z.pos p) (Z.pos p - 1)) = k)
      by (simpl in Hk; lia).
    rewrite (IH _ (num_errors + 1)%Z extra Hpos' Hk'). f_equal. lia.
Qed.

Lemma bits_value_differences (a : list bool) : forall b acc_a acc_b,
  length a = length b ->
  (0 <= acc_a)%Z -> (0 <= acc_b)%Z ->
  let f := fun acc (x : bool) => (2 * acc + Z.b2z x)%Z in
  (0 <= Z.lxor (foldl f acc_a a) (foldl f acc_b b))%Z
  /\ popcount (Z.lxor (foldl f acc_a a) (foldl f acc_b b))
     = popcount (Z.lxor acc_a acc_b) + differences a b.
Proof.
  induction a as [|x a IH]; intros b acc_a acc_b Hlen Ha Hb f.
  - destruct b; [|done]. simpl. split; [|lia].
    apply Z.lxor_nonneg. tauto.
  - destruct b as [|y b]; [done|]. injection Hlen as Hlen.
    cbn [foldl differences]. subst f. cbv beta.
    assert (Hx : (0 <= 2 * acc_a + Z.b2z x)%Z) by (destruct x; simpl; lia).
    assert (Hy : (0 <= 2 * acc_b + Z.b2z y)%Z) by (destruct y; simpl; lia).
    destruct (IH b _ _ Hlen Hx Hy) as [Hpos Hcount].
    split; [exact Hpos|].
    cbv zeta in Hcount. rewrite Hcount, lxor_double_bits.
    rewrite popcount_double_bit by (apply Z.lxor_nonneg; tauto).
    lia.
Qed.

(** X18.  For two bit lists of the same length (not empty, so that [int] reads
    them) the loop ends, and it counts the positions at which Alice's and
    Bob's bits differ: with enough fuel it returns their number, starting
    from [alice_bits ^ bob_bits]. *)
Theorem count_errors_counts_differences (alice bob : list bool)
    (extra : nat) :
  alice <> [] ->
  length alice = length bob ->
  count_errors_loop (S (differences alice bob) + extra)
    (Z.lxor (bits_value alice) (bits_value bob)) 0
  = Some (Z.of_nat (differences alice bob)).
Proof.
  intros _ Hlen. unfold bits_value.
  destruct (bits_value_differences alice bob 0%Z 0%Z Hlen) as [Hpos Hcount];
    [lia..|].
  cbv zeta in Hpos, Hcount.
  rewrite (count_errors_loop_popcount (differences alice bob) _ 0%Z extra Hpos).
  - f_equal.
  - rewrite Hcount. done.
Qed.

Lemma count_errors_counts_differences_witness :
  count_errors_loop (S (differences [true; false; true; true]
                          [true; true; true; false]) + 0)
    (Z.lxor (bits_value [true; false; true; true])
       (bits_value [true; true; true; false])) 0
  = Some (Z.of_nat (differences [true; false; true; true]
                      [true; true; true; false]))
  /\ differences [true; false; true; true] [true; true; true; false] = 2.
Proof.
  split; [|reflexivity].
  apply (count_errors_counts_differences [true; false; true; true]
           [true; true; true; false] 0).
  - discriminate.
  - reflexivity.
Defined.

(** X19.  On a negative number the loop never ends: [bit_diff & (bit_diff - 1)]
    of a negative number is negative again, so [bit_diff] never becomes
    0. *)
Theorem count_errors_negative_never_ends (bit_diff : Z) :
  (bit_diff < 0)%Z ->
  forall fuel num_errors, count_errors_loop fuel bit_diff num_errors = None.
Proof.
  intros Hneg fuel. revert bit_diff Hneg.
  induction fuel as [|fuel IH]; intros bit_diff Hneg num_errors; [done|].
  rewrite count_errors_loop_S.
  destruct (Z.eqb_spec bit_diff 0) as [->|_]; [lia|].
  apply IH. apply Z.land_neg. lia.
Qed.

Lemma count_errors_negative_never_ends_witness :
  count_errors_loop 1000 (-3) 0 = None.
Proof.
  apply (count_errors_negative_never_ends (-3)). reflexivity.
Defined.

End ErrorCount.

(** ** The "received_photons" message of the swap protocol *)

Section ReceivedPhotons.
Import Swap.

(** [re.sub("[],[]", "", val)]: the pattern is the class of the characters
    "]", "," and "[", and every such character is removed. *)
Fixpoint re_sub_brackets (val : string) : string :=
  match val with
  | EmptyString => EmptyString
  | String c rest =>
      if Ascii.eqb c "]" || Ascii.eqb c "," || Ascii.eqb c "["
      then re_sub_brackets rest
      else String c (re_sub_brackets rest)
  end.

(** Python's [sep.join(l)]. *)
Fixpoint join (sep : string) (l : list string) : string :=
  match l with
  | [] => EmptyString
  | [x] => x
  | x :: rest => String.append x (String.append sep (join sep rest))
  end.

Section Builtins.

(** Python's [int] on a string and [str] on an integer. *)
Variable int : string -> Exc Z.
Variable str : Z -> string.

(** [for val in vals: indices.append(int(re.sub("[],[]", "", val)))] *)
Fixpoint parse_indices (vals : list string) : Exc (list Z) :=
  match vals with
  | [] => mret []
  | val :: rest =>
      i ← int (re_sub_brackets val);
      indices ← parse_indices rest;
      mret (i :: indices)
  end.

(** The "received_photons" branch of [Swap.received_message] up to the
    store into [self.indices]; the argument [indices] is that field.  What
    follows the store ([send_to_bsm]) drives hardware and is outside the
    embedding. *)
Definition received_photons_indices (indices : list (option (list Z)))
    (message : list string) : Exc (list (option (list Z))) :=
  first ← getitem message 1;
  parsed ← (if String.eqb first "[]" then mret []
            else parse_indices (drop 1 message));
  token ← getitem message 1;
  sender ← int token;
  setitem indices sender (Some parsed).

(** [[i for i, b in enumerate(bits) if b != -1]], counting from [i]. *)
Fixpoint detected_from (i : Z) (bits : list Z) : list Z :=
  match bits with
  | [] => []
  | b :: rest =>
      if (b =? -1)%Z then detected_from (i + 1) rest
      else i :: detected_from (i + 1) rest
  end.

(** [str(l)] for a list of integers. *)
Definition str_list (l : list Z) : string :=
  String.append "[" (String.append (join ", " (str <$> l)) "]").

(** The message [Swap.end_photon_pulse] sends for the bits the detector
    returned: ["received_photons {} {}".format(self.role, indices)]. *)
Definition end_photon_pulse_message (role : Z) (bits : list Z) : string :=
  String.append "received_photons "
    (String.append (str role)
       (String.append " " (str_list (detected_from 0 bits)))).

End Builtins.

(** The string has no blank, and no blank, bracket or comma. *)
Fixpoint no_blank (s : string) : bool :=
  match s with
  | EmptyString => true
  | String c rest => negb (Ascii.eqb c " ") && no_blank rest
  end.

Fixpoint plain (s : string) : bool :=
  match s with
  | EmptyString => true
  | String c rest =>
      negb (Ascii.eqb c " " || Ascii.eqb c "]" || Ascii.eqb c ","
            || Ascii.eqb c "[")
      && plain rest
  end.

Lemma plain_no_blank s : plain s = true -> no_blank s = true.
Proof.
  induction s as [|c s IH]; simpl; [done|].
  destruct (Ascii.eqb c " "); simpl; [done|].
  intros H. apply andb_true_iff in H as [_ H]. auto.
Qed.

Lemma no_blank_app a b :
  no_blank a = true -> no_blank b = true ->
  no_blank (String.append a b) = true.
Proof.
  induction a as [|c a IH]; simpl; [done|].
  rewrite !andb_true_iff. intros [? ?] ?. auto.
Qed.

Lemma split_nonempty sep s : split sep s <> [].
Proof.
  destruct s as [|c s]; simpl; [done|].
  destruct (Ascii.eqb c sep); [done|]. by destruct (split sep s).
Qed.

(** A token in front of a blank. *)
Lemma split_token a b :
  no_blank a = true ->
  split " " (String.append a (String " " b)) = a :: split " " b.
Proof.
  induction a as [|c a IH]; simpl; [done|].
  rewrite andb_true_iff, negb_true_iff. intros [Hc Ha].
  rewrite Hc, IH by done. done.
Qed.

Lemma split_last_token a :
  no_blank a = true -> split " " a = [a].
Proof.
  induction a as [|c a IH]; simpl; [done|].
  rewrite andb_true_iff, negb_true_iff. intros [Hc Ha].
  rewrite Hc, IH by done. done.
Qed.

Lemma re_sub_brackets_app a b :
  re_sub_brackets (String.append a b)
  = String.append (re_sub_brackets a) (re_sub_brackets b).
Proof.
  induction a as [|c a IH]; simpl; [done|].
  destruct (_ || _); simpl; by rewrite IH.
Qed.

Lemma re_sub_brackets_plain a : plain a = true -> re_sub_brackets a = a.
Proof.
  induction a as [|c a IH]; simpl; [done|].
  destruct (Ascii.eqb c " "); simpl; [done|].
  destruct (Ascii.eqb c "]"); simpl; [done|].
  destruct (Ascii.eqb c ","); simpl; [done|].
  destruct (Ascii.eqb c "["); simpl; [done|].
  intros Ha. by rewrite IH.
Qed.

Lemma append_nil_r (a : string) : String.append a "" = a.
Proof.
  induction a as [|c a IH]; [done|].
  change (String c (String.append a "") = String c a). by rewrite IH.
Qed.

Lemma append_assoc (a b c : string) :
  String.append (String.append a b) c = String.append a (String.append b c).
Proof.
  induction a as [|x a IH]; [done|].
  change (String x (String.append (String.append a b) c)
          = String x (String.append a (String.append b c))).
  by rewrite IH.
Qed.

Lemma append_cons (c : ascii) (a b : string) :
  String.append (String c a) b = String c (String.append a b).
Proof. reflexivity. Qed.

Lemma plain_not_brackets s : plain s = true -> String.eqb s "[]" = false.
Proof.
  intros Hplain. destruct (String.eqb_spec s "[]") as [->|Hne]; [|done].
  by vm_compute in Hplain.
Qed.

(** The number [z] is printed and read back, and its text has no blank,
    bracket or comma. *)
Definition prints_plainly (int : string -> Exc Z) (str : Z -> string)
    (z : Z) : Prop :=
  int (str z) = inr z /\ plain (str z) = true.

Lemma parse_indices_open_bracket int t :
  parse_indices int (split " " (String "[" t))
  = parse_indices int (split " " t).
Proof.
  cbn [split]. change (Ascii.eqb "[" " ") with false. cbv iota.
  destruct (split " " t) as [|token tokens] eqn:E.
  - by apply split_nonempty in E.
  - reflexivity.
Qed.

Lemma parse_indices_joined int str (zs : list Z) :
  Forall (prints_plainly int str) zs ->
  zs <> [] ->
  parse_indices int
    (split " " (String.append (join ", " (str <$> zs)) "]"))
  = inr zs.
Proof.
  induction zs as [|z zs IH]; intros Hzs Hne; [done|].
  apply Forall_cons in Hzs as [[Hint Hplain] Hzs].
  destruct zs as [|z' zs].
  - cbn [fmap list_fmap join].
    rewrite split_last_token
      by (apply no_blank_app; [by apply plain_no_blank|done]).
    cbn [parse_indices].
    rewrite re_sub_brackets_app, re_sub_brackets_plain by done.
    change (re_sub_brackets "]") with "". rewrite append_nil_r, Hint.
    reflexivity.
  - replace (String.append (join ", " (str <$> z :: z' :: zs)) "]")
      with (String.append (String.append (str z) ",")
              (String " "
                 (String.append (join ", " (str <$> z' :: zs)) "]"))).
    + rewrite split_token
        by (apply no_blank_app; [by apply plain_no_blank|done]).
      cbn [parse_indices].
      rewrite re_sub_brackets_app, re_sub_brackets_plain by done.
      change (re_sub_brackets ",") with "". rewrite append_nil_r, Hint.
      cbn [mbind Exc_bind]. rewrite IH by done. reflexivity.
    + cbn [fmap list_fmap join]. rewrite !append_assoc. reflexivity.
Qed.

(** X20.  The round trip of the "received_photons" message.  Alice or Bob sends
    the indices at which the detector returned a bit; Charlie splits the
    message at the blanks and reads every token after the first as an
    index, the sender's role included.  When no photon was detected the
    list is printed as "[]", whose text without brackets is empty, and
    reading it raises [ValueError].  Otherwise the list Charlie stores for
    the sender is the sender's role followed by the indices that were
    sent. *)
Theorem received_photons_round_trip (int : string -> Exc Z)
    (str : Z -> string) (role : Z) (bits : list Z)
    (indices : list (option (list Z))) :
  int "" = inl ValueError ->
  Forall (prints_plainly int str) (role :: detected_from 0 bits) ->
  received_photons_indices int indices
    (split " " (end_photon_pulse_message str role bits))
  = match detected_from 0 bits with
    | [] => inl ValueError
    | detected => setitem indices role (Some (role :: detected))
    end.
Proof.
  intros Hempty Hall. apply Forall_cons in Hall as [[Hint Hplain] Hall].
  unfold end_photon_pulse_message, str_list.
  change (String.append "received_photons " ?x)
    with (String.append "received_photons" (String " " x)).
  rewrite split_token by done.
  change (String.append " " ?x) with (String " " x).
  rewrite split_token by (by apply plain_no_blank).
  change (String.append "[" ?x) with (String "[" x).
  unfold received_photons_indices.
  rewrite (getitem_in_range _ 1 (str role)) by done.
  cbn [mbind Exc_bind]. rewrite plain_not_brackets by done.
  cbn [drop parse_indices].
  rewrite re_sub_brackets_plain, Hint by done. cbn [mbind Exc_bind].
  rewrite parse_indices_open_bracket.
  destruct (detected_from 0 bits) as [|i detected] eqn:E.
  - cbn [fmap list_fmap join].
    change (String.append "" "]") with "]". cbn [split].
    change (Ascii.eqb "]" " ") with false. cbv iota.
    cbn [parse_indices]. change (re_sub_brackets "]") with "".
    by rewrite Hempty.
  - rewrite (parse_indices_joined int str) by done.
    cbn [mbind Exc_bind mret Exc_ret]. reflexivity.
Qed.

(** Python's [str] on an integer. *)
Definition str_decimal (z : Z) : string :=
  NilZero.string_of_int (Z.to_int z).

(** Alice (role 0) detects photons at the indices 0, 2 and 3; Bob (role 1)
    detects none. *)
Lemma received_photons_round_trip_witness :
  received_photons_indices int_decimal [None; None]
    (split " " (end_photon_pulse_message str_decimal 0 [1; -1; 0; 1]%Z))
  = inr [Some [0; 0; 2; 3]%Z; None]
  /\ end_photon_pulse_message str_decimal 0 [1; -1; 0; 1]%Z
     = "received_photons 0 [0, 2, 3]"
  /\ received_photons_indices int_decimal [None; None]
       (split " " (end_photon_pulse_message str_decimal 1 [-1; -1]%Z))
     = inl ValueError.
Proof.
  split_and!; [|reflexivity|].
  - rewrite (received_photons_round_trip int_decimal str_decimal 0
               [1; -1; 0; 1]%Z [None; None]).
    + reflexivity.
    + reflexivity.
    + repeat (apply Forall_cons; split; [by split|]). apply Forall_nil_2.
  - rewrite (received_photons_round_trip int_decimal str_decimal 1
               [-1; -1]%Z [None; None]).
    + reflexivity.
    + reflexivity.
    + repeat (apply Forall_cons; split; [by split|]). apply Forall_nil_2.
Defined.

End ReceivedPhotons.

(** ** The "bsm_result" message of the swap protocol *)

Section BsmResult.
Import Swap.

(** The loop that groups the parsed numbers two by two:
    [for i, val in enumerate(times_and_bits): bsm_single.append(val); if i % 2: bsm_res.append(bsm_single); bsm_single = []]. *)
Fixpoint pair_up (i : nat) (times_and_bits : list Z)
    (bsm_single : list Z) (bsm_res : list (list Z)) : list (list Z) :=
  match times_and_bits with
  | [] => bsm_res
  | val :: rest =>
      let bsm_single := bsm_single ++ [val] in
      if Nat.eqb (i mod 2) 0
      then pair_up (S i) rest bsm_single bsm_res
      else pair_up (S i) rest [] (bsm_res ++ [bsm_single])
  end.

(** The fields of a [Swap] that the "bsm_result" branch touches. *)
Record SwapBits := {
  role : Z;
  raw_bit_list : list Z;
  bit_list : list Z
}.

(** The loop over the results:
    [bit = self.raw_bit_list.pop(0); if self.role == 1: bit = 1 - bit; self.bit_list.append(bit)].
    [pop(0)] on an empty list raises [IndexError]; the object is returned
    as the loop leaves it. *)
Fixpoint correct_bits {A} (bsm_res : list A) (self : SwapBits)
  : option PyExc * SwapBits :=
  match bsm_res with
  | [] => (None, self)
  | _ :: rest =>
      match raw_bit_list self with
      | [] => (Some IndexError, self)
      | bit :: raw =>
          let bit := if (role self =? 1)%Z then (1 - bit)%Z else bit in
          correct_bits rest
            {| role := role self;
               raw_bit_list := raw;
               bit_list := bit_list self ++ [bit] |}
      end
  end.

(** The bit a node keeps for a raw bit: Bob (role 1) complements it. *)
Definition corrected (role : Z) (bit : Z) : Z :=
  if (role =? 1)%Z then (1 - bit)%Z else bit.

Lemma pair_up_length (l : list Z) : forall i bsm_single bsm_res,
  length (pair_up i l bsm_single bsm_res)
  = length bsm_res + (length l + i mod 2) / 2.
Proof.
  induction l as [|val l IH]; intros i bsm_single bsm_res.
  - cbn [pair_up length]. 
    assert (i mod 2 < 2) by (apply Nat.mod_upper_bound; lia).
    rewrite Nat.div_small by lia. lia.
  - cbn [pair_up length].
    assert (Hi : i mod 2 = 0 \/ i mod 2 = 1).
    { assert (i mod 2 < 2) by (apply Nat.mod_upper_bound; lia). lia. }
    assert (HS : S i mod 2 = 1 - i mod 2).
    { replace (S i) with (1 + i) by lia.
      rewrite <- Nat.Div0.add_mod_idemp_r.
      destruct Hi as [-> | ->]; reflexivity. }
    destruct Hi as [Hi|Hi]; rewrite Hi in *; cbn [Nat.eqb].
    + rewrite IH, HS. f_equal. f_equal. lia.
    + rewrite IH, HS, length_app. cbn [length].
      replace (S (length l) + 1) with (length l + 1 * 2) by lia.
      replace (length l + (1 - 1)) with (length l) by lia.
      rewrite Nat.div_add by lia. lia.
Qed.

Lemma correct_bits_enough {A} (bsm_res : list A) : forall self,
  length bsm_res <= length (raw_bit_list self) ->
  correct_bits bsm_res self =
    (None,
     {| role := role self;
        raw_bit_list := drop (length bsm_res) (raw_bit_list self);
        bit_list := bit_list self
                    ++ (corrected (role self)
                          <$> take (length bsm_res) (raw_bit_list self)) |}).
Proof.
  induction bsm_res as [|r bsm_res IH]; intros self Hlen.
  - cbn. rewrite app_nil_r. by destruct self.
  - cbn [correct_bits length]. cbn [length] in Hlen.
    destruct (raw_bit_list self) as [|bit raw] eqn:E; [simpl in Hlen; lia|].
    rewrite IH by (simpl in *; lia).
    cbn [role raw_bit_list bit_list drop take fmap list_fmap].
    unfold corrected. by rewrite <- app_assoc.
Qed.

Lemma correct_bits_short {A} (bsm_res : list A) : forall self,
  length (raw_bit_list self) < length bsm_res ->
  correct_bits bsm_res self =
    (Some IndexError,
     {| role := role self;
        raw_bit_list := [];
        bit_list := bit_list self
                    ++ (corrected (role self) <$> raw_bit_list self) |}).
Proof.
  induction bsm_res as [|r bsm_res IH]; intros self Hlen.
  - simpl in Hlen. lia.
  - cbn [correct_bits].
    destruct (raw_bit_list self) as [|bit raw] eqn:E.
    + cbn. rewrite app_nil_r. destruct self; simpl in *. by subst.
    + rewrite IH by (simpl in *; lia).
      cbn [role raw_bit_list bit_list fmap list_fmap].
      unfold corrected. by rewrite <- app_assoc.
Qed.

(** X21.  What a node does with the results of the Bell-state measurement: the
    parsed numbers are grouped two by two (a last odd number is dropped),
    and for each group one raw bit is taken from the front of
    [raw_bit_list], complemented by Bob, and appended to [bit_list]; the
    numbers themselves are not looked at.  When there are fewer raw bits
    than groups, [pop] raises [IndexError] after all raw bits have been
    moved. *)
Theorem bsm_result_takes_leading_bits (times_and_bits : list Z)
    (self : SwapBits) :
  let groups := length times_and_bits / 2 in
  let bsm_res := pair_up 0 times_and_bits [] [] in
  length bsm_res = groups
  /\ (groups <= length (raw_bit_list self) ->
      correct_bits bsm_res self =
        (None,
         {| role := role self;
            raw_bit_list := drop groups (raw_bit_list self);
            bit_list := bit_list self
                        ++ (corrected (role self)
                              <$> take groups (raw_bit_list self)) |}))
  /\ (length (raw_bit_list self) < groups ->
      correct_bits bsm_res self =
        (Some IndexError,
         {| role := role self;
            raw_bit_list := [];
            bit_list := bit_list self
                        ++ (corrected (role self) <$> raw_bit_list self) |})).
Proof.
  intros groups bsm_res.
  assert (Hlen : length bsm_res = groups).
  { subst bsm_res groups. rewrite pair_up_length. cbn [length].
    change (0 mod 2) with 0. by rewrite Nat.add_0_r. }
  split_and!.
  - done.
  - intros Hle. rewrite <- Hlen. apply correct_bits_enough. lia.
  - intros Hlt. apply correct_bits_short. lia.
Qed.

End BsmResult.

(** ** The cost table of [_generate_forwaring_table] *)

Section Costs.

(** Distances are numbers; only their addition is used. *)
Variable D : Type.
Variable add : D -> D -> D.

(** What the loop reads of a quantum channel object: [qc.sender.name],
    [qc.receiver] and [qc.distance]. *)
Record QChannel := {
  sender_name : string;
  receiver : string;
  distance : D
}.

(** An entry of [costs] is a list of routers followed by a distance; it is
    kept as the pair of the routers and the distance. *)
Definition costs_step (costs : gmap string (list string * D)) (qc : QChannel)
  : gmap string (list string * D) :=
  let router := sender_name qc in
  let bsm := receiver qc in
  match costs !! bsm with
  | None => <[bsm := ([router], distance qc)]> costs
  | Some (routers, total) =>
      <[bsm := (router :: routers, add total (distance qc))]> costs
  end.

Definition build_costs (qchannels : list QChannel)
  : gmap string (list string * D) :=
  foldl costs_step ∅ qchannels.

Definition channels_into (bsm : string) (l : list QChannel) : list QChannel :=
  filter (fun qc => receiver qc = bsm) l.

Definition add_distance (total : D) (qc : QChannel) : D :=
  add total (distance qc).

Lemma costs_lookup (l : list QChannel) (bsm : string) :
  forall costs : gmap string (list string * D),
    foldl costs_step costs l !! bsm =
      match costs !! bsm, channels_into bsm l with
      | Some (routers, total), chans =>
          Some (rev (sender_name <$> chans) ++ routers,
                foldl add_distance total chans)
      | None, [] => None
      | None, qc :: chans =>
          Some (rev (sender_name <$> qc :: chans),
                foldl add_distance (distance qc) chans)
      end.
Proof.
  unfold channels_into.
  induction l as [|qc l IH]; intros costs.
  - cbn. by destruct (costs !! bsm) as [[routers total]|].
  - cbn [foldl]. rewrite IH. clear IH. unfold costs_step.
    destruct (decide (receiver qc = bsm)) as [Heq|Hne].
    + rewrite filter_cons_True by done. rewrite Heq.
      destruct (costs !! bsm) as [[routers total]|] eqn:Hc;
        rewrite lookup_insert_eq; cbn [fmap list_fmap rev foldl].
      * by rewrite <- app_assoc.
      * reflexivity.
    + rewrite filter_cons_False by done.
      destruct (costs !! receiver qc) as [[routers total]|];
        by rewrite lookup_insert_ne by done.
Qed.

(** X22.  The entry of a node in [costs]: absent when no quantum channel ends in
    the node; otherwise the senders of the channels that end in it, the
    latest first, with the sum of their distances added up in the order of
    the channels.  For two channels this is the edge between the two routers
    weighted with the sum of the two distances. *)
Theorem costs_sum_distances (qchannels : list QChannel) (bsm : string) :
  build_costs qchannels !! bsm =
    match channels_into bsm qchannels with
    | [] => None
    | qc :: chans =>
        Some (rev (sender_name <$> qc :: chans),
              foldl add_distance (distance qc) chans)
    end
  /\ (forall qc1 qc2,
        channels_into bsm qchannels = [qc1; qc2] ->
        build_costs qchannels !! bsm =
          Some ([sender_name qc2; sender_name qc1],
                add (distance qc1) (distance qc2))).
Proof.
  assert (H : build_costs qchannels !! bsm =
    match channels_into bsm qchannels with
    | [] => None
    | qc :: chans =>
        Some (rev (sender_name <$> qc :: chans),
              foldl add_distance (distance qc) chans)
    end).
  { unfold build_costs. rewrite costs_lookup. by rewrite lookup_empty. }
  split; [exact H|].
  intros qc1 qc2 Hc. rewrite H, Hc. reflexivity.
Qed.

End Costs.
